(** * vlist.js: a virtually-rendered scrollable list

    A shallow embedding of [src/vlist.js] and the properties its
    specification states about the windowing engine.

    Modelling choices.
    - JavaScript numbers are embedded as [Z]: pixel sizes, scroll offsets,
      row indices and timestamps are integer-valued doubles here.
      [Math.ceil(a / b)] is taken as the ceiling of the rational;
      [parseInt(a / b)] reads the text of the quotient; the products
      written into [style.top] and [style.height] are rounded to doubles
      and printed as [String] prints them.
    - DOM elements live in a store ([heap]) and are referred to by
      reference; [this.scroller] and [container.childNodes\[0\]] are two
      names of one element, and the nodes returned by
      [document.querySelectorAll] are the very nodes of the container.
    - The data source [getNodes] is external and asynchronous: a call is
      recorded as outstanding ([inflight]) and its callback runs later,
      as an event of its own, with whatever items the source delivers.
    - Timers are events too: the body of the [setTimeout] callback of
      [onScroll] and the body of the [setInterval] callback are functions
      that take the current time. *)

From stdpp Require Import gmap strings list fin_maps pretty.

Local Open Scope Z_scope.

(** ** Numbers and strings *)

(** [Math.ceil(a / b)] on integers, [b] non-zero. *)
Definition Math_ceil_div (a b : Z) : Z := - ((- a) / b).

(** The first significant digit of the quotient [a / b], for
    [0 < a < b]. *)
Fixpoint leading_digit (fuel : nat) (a b : Z) : Z :=
  match fuel with
  | O => 0
  | S fuel' =>
      if b <=? a * 10 then (a * 10) / b else leading_digit fuel' (a * 10) b
  end.

(** [parseInt(a / b)] for integers [a] and [b] below [2 ^ 48] in
    magnitude, [b] non-zero.  [parseInt] reads the text of the quotient:
    its integer part, or, when the quotient is below [1e-6] in magnitude
    and its text is in exponent notation, its first digit.  Within these
    magnitudes the text has the integer part and the first digit of the
    exact quotient.  For [b = 0] the code gets [NaN], which is not
    represented: no list is built with a row height of zero. *)
Definition parseInt_div (a b : Z) : Z :=
  if a =? 0 then 0
  else if Z.abs a * 1000000 <? Z.abs b then
    Z.sgn a * Z.sgn b *
      leading_digit (S (Z.to_nat (Z.log2 (Z.abs b)))) (Z.abs a) (Z.abs b)
  else a `quot` b.

(** [n + 'px'] for a number [n]. *)
Definition px (n : Z) : string := pretty n +:+ "px".

(** [v + 'px'] where [v] is a property that may be absent: string
    concatenation converts [undefined] to the text "undefined". *)
Definition plus_px (v : option Z) : string :=
  match v with
  | Some n => px n
  | None => "undefined" +:+ "px"
  end.

(** ** Double-precision arithmetic on integers *)

(** The double nearest to the integer [z], ties to the even mantissa:
    what [a * b] and [a + b] give for doubles [a], [b] with the exact
    result [z].  A result of magnitude [2 ^ 1024] or more stands for an
    infinity. *)
Definition double_round (z : Z) : Z :=
  let a := Z.abs z in
  if a <? 2 ^ 53 then z
  else
    let e := Z.log2 a - 52 in
    let q := a / 2 ^ e in
    let r := a `mod` 2 ^ e in
    let half := 2 ^ (e - 1) in
    let m := if (half <? r) || ((r =? half) && Z.odd q) then q + 1 else q in
    Z.sgn z * (m * 2 ^ e).

(** The digits [s] (of [k] places) and the decimal exponent [q] fit the
    double [a]: [s * 10 ^ (q - k)] lies in the interval of the numbers
    that round to [a]. *)
Definition fits_double (a lo hi : Z) (incl : bool) (k q s : Z) : bool :=
  let v := s * 10 ^ (q - k) in
  (10 ^ (k - 1) <=? s) && (s <? 10 ^ k) &&
  (if incl then (lo <=? v) && (v <=? hi) else (lo <? v) && (v <? hi)).

(** The candidates with [k] digits, nearest first. *)
Definition digit_candidates (a : Z) (k p : Z) : list (Z * Z) :=
  let c q := let s0 := a / 10 ^ (q - k) in [(q, s0); (q, s0 + 1)] in
  let near '(q, s) := Z.abs (s * 10 ^ (q - k) - a) in
  let cs := c p ++ c (p + 1) in
  filter (λ x, Forall (λ y, near x ≤ near y) cs) cs ++ cs.

(** The shortest digits that denote the double [a], searched from one
    digit up. *)
Fixpoint shortest_digits (fuel : nat) (a lo hi : Z) (incl : bool) (k p : Z) : Z * Z * Z :=
  match fuel with
  | O => (k, p, a / 10 ^ (p - k))
  | S fuel' =>
      match filter (λ '(q, s), fits_double a lo hi incl k q s = true)
                   (digit_candidates a k p) with
      | (q, s) :: _ => (k, q, s)
      | [] => shortest_digits fuel' a lo hi incl (k + 1) p
      end
  end.

(** The text of an integer-valued double [a] of at least [10 ^ 21]:
    exponent notation with the shortest digits that denote it. *)
Definition exponent_text (a : Z) : string :=
  let e := Z.log2 a - 52 in
  let m := a / 2 ^ e in
  let hi := a + 2 ^ (e - 1) in
  let lo := if m =? 2 ^ 52 then a - 2 ^ (e - 2) else a - 2 ^ (e - 1) in
  let p := Z.of_nat (String.length (pretty a)) in
  let '(k, q, s) := shortest_digits 17 a lo hi (Z.even m) 1 p in
  match pretty s with
  | String d rest =>
      String d (match rest with EmptyString => EmptyString | _ => "." +:+ rest end)
        +:+ "e+" +:+ pretty (q - 1)
  | EmptyString => EmptyString
  end.

(** The text of a number: [String(n)] for an integer-valued double. *)
Definition number_text (n : Z) : string :=
  if 2 ^ 1024 <=? Z.abs n then (if n <? 0 then "-Infinity" else "Infinity")
  else if Z.abs n <? 10 ^ 21 then pretty n
  else (if n <? 0 then "-" else EmptyString) +:+ exponent_text (Z.abs n).

(** [(a * b) + 'px'] for doubles [a] and [b]. *)
Definition times_px (a b : Z) : string := number_text (double_round (a * b)) +:+ "px".

(** Truthiness of a string: only the empty string is falsy. *)
Definition truthy (s : string) : bool :=
  match s with
  | EmptyString => false
  | String _ _ => true
  end.

(** ** Data *)

Section Model.

Context {Item Content : Type}.

(** The [config] object handed to the constructor.  [w] and [h] may be
    omitted. *)
Record Config := {
  cfg_w : option Z;
  cfg_h : option Z;
  cfg_itemHeight : Z;
  cfg_generatorFn : Item → Content
}.

(** A DOM element, reduced to what the list reads and writes.  [content]
    is what [generatorFn] built ([None] for the scroller); [row_index] is
    a ghost field, the logical index of the row: the window start plus
    the position of its item in the answer (the source keeps it only
    inside [style.top]). *)
Record Node := {
  content : option Content;
  class_vrow : bool;
  style_position : string;
  style_top : string;
  style_height : string;
  style_display : string;
  attr_data_rm : option string;
  row_index : option Z
}.

(** A [getNodes(from, count, cb)] call whose callback [cb] has not run
    yet.  The callback closes over [from] (and over the container). *)
Record Fetch := { f_from : Z; f_count : Z }.

(** Fields and closure variables assigned once by the constructor:
    [this.itemHeight], [this.generatorFn], [this.scroller] (a reference
    into the element store), [this.cachedItemsLen], the values assigned
    to [style.width] and [style.height] of the container, and the
    closure variables [screenItemsLen] and [maxBuffer]. *)
Record Fixed := {
  fx_itemHeight : Z;
  fx_generatorFn : Item → Content;
  fx_scroller : nat;
  fx_cachedItemsLen : Z;
  fx_container_width : string;
  fx_container_height : string;
  fx_screenItemsLen : Z;
  fx_maxBuffer : Z
}.

(** The list instance, the closure variables of its constructor, the DOM
    it owns and the outstanding calls of its data source.  [requested]
    and [issued] are ghost logs of all [_renderChunk] and [getNodes]
    calls; [lastCompleted] is the ghost record of the fetch whose
    callback ran last.  [this.lastFrom] and [this.request] are written
    once and never read, and are left out. *)
Record State := {
  fixed : Fixed;
  loading : bool;
  totalRows : Z;
  nextChunk : option Z;          (* [false], or [{node: container, from}] *)
  childNodes : list nat;         (* [container.childNodes] *)
  lastRepaintY : option Z;       (* [None] is [undefined] *)
  lastScrolled : Z;
  heap : gmap nat Node;
  next_ref : nat;
  inflight : list Fetch;
  requested : list Z;
  issued : list (Z * Z);
  lastCompleted : option Fetch
}.

Definition itemHeight (st : State) : Z := fx_itemHeight (fixed st).
Definition generatorFn (st : State) : Item → Content := fx_generatorFn (fixed st).
Definition scroller (st : State) : nat := fx_scroller (fixed st).
Definition cachedItemsLen (st : State) : Z := fx_cachedItemsLen (fixed st).
Definition screenItemsLen (st : State) : Z := fx_screenItemsLen (fixed st).
Definition maxBuffer (st : State) : Z := fx_maxBuffer (fixed st).

Definition set_loading (v : bool) (st : State) : State :=
  {| fixed := fixed st; loading := v; totalRows := totalRows st;
     nextChunk := nextChunk st; childNodes := childNodes st;
     lastRepaintY := lastRepaintY st; lastScrolled := lastScrolled st;
     heap := heap st; next_ref := next_ref st; inflight := inflight st;
     requested := requested st; issued := issued st;
     lastCompleted := lastCompleted st |}.

Definition set_totalRows (v : Z) (st : State) : State :=
  {| fixed := fixed st; loading := loading st; totalRows := v;
     nextChunk := nextChunk st; childNodes := childNodes st;
     lastRepaintY := lastRepaintY st; lastScrolled := lastScrolled st;
     heap := heap st; next_ref := next_ref st; inflight := inflight st;
     requested := requested st; issued := issued st;
     lastCompleted := lastCompleted st |}.

Definition set_nextChunk (v : option Z) (st : State) : State :=
  {| fixed := fixed st; loading := loading st; totalRows := totalRows st;
     nextChunk := v; childNodes := childNodes st;
     lastRepaintY := lastRepaintY st; lastScrolled := lastScrolled st;
     heap := heap st; next_ref := next_ref st; inflight := inflight st;
     requested := requested st; issued := issued st;
     lastCompleted := lastCompleted st |}.

Definition set_childNodes (v : list nat) (st : State) : State :=
  {| fixed := fixed st; loading := loading st; totalRows := totalRows st;
     nextChunk := nextChunk st; childNodes := v;
     lastRepaintY := lastRepaintY st; lastScrolled := lastScrolled st;
     heap := heap st; next_ref := next_ref st; inflight := inflight st;
     requested := requested st; issued := issued st;
     lastCompleted := lastCompleted st |}.

Definition set_lastRepaintY (v : option Z) (st : State) : State :=
  {| fixed := fixed st; loading := loading st; totalRows := totalRows st;
     nextChunk := nextChunk st; childNodes := childNodes st;
     lastRepaintY := v; lastScrolled := lastScrolled st; heap := heap st;
     next_ref := next_ref st; inflight := inflight st;
     requested := requested st; issued := issued st;
     lastCompleted := lastCompleted st |}.

Definition set_lastScrolled (v : Z) (st : State) : State :=
  {| fixed := fixed st; loading := loading st; totalRows := totalRows st;
     nextChunk := nextChunk st; childNodes := childNodes st;
     lastRepaintY := lastRepaintY st; lastScrolled := v; heap := heap st;
     next_ref := next_ref st; inflight := inflight st;
     requested := requested st; issued := issued st;
     lastCompleted := lastCompleted st |}.

Definition set_heap (v : gmap nat Node) (st : State) : State :=
  {| fixed := fixed st; loading := loading st; totalRows := totalRows st;
     nextChunk := nextChunk st; childNodes := childNodes st;
     lastRepaintY := lastRepaintY st; lastScrolled := lastScrolled st;
     heap := v; next_ref := next_ref st; inflight := inflight st;
     requested := requested st; issued := issued st;
     lastCompleted := lastCompleted st |}.

Definition set_next_ref (v : nat) (st : State) : State :=
  {| fixed := fixed st; loading := loading st; totalRows := totalRows st;
     nextChunk := nextChunk st; childNodes := childNodes st;
     lastRepaintY := lastRepaintY st; lastScrolled := lastScrolled st;
     heap := heap st; next_ref := v; inflight := inflight st;
     requested := requested st; issued := issued st;
     lastCompleted := lastCompleted st |}.

Definition set_inflight (v : list Fetch) (st : State) : State :=
  {| fixed := fixed st; loading := loading st; totalRows := totalRows st;
     nextChunk := nextChunk st; childNodes := childNodes st;
     lastRepaintY := lastRepaintY st; lastScrolled := lastScrolled st;
     heap := heap st; next_ref := next_ref st; inflight := v;
     requested := requested st; issued := issued st;
     lastCompleted := lastCompleted st |}.

Definition set_requested (v : list Z) (st : State) : State :=
  {| fixed := fixed st; loading := loading st; totalRows := totalRows st;
     nextChunk := nextChunk st; childNodes := childNodes st;
     lastRepaintY := lastRepaintY st; lastScrolled := lastScrolled st;
     heap := heap st; next_ref := next_ref st; inflight := inflight st;
     requested := v; issued := issued st; lastCompleted := lastCompleted st |}.

Definition set_issued (v : list (Z * Z)) (st : State) : State :=
  {| fixed := fixed st; loading := loading st; totalRows := totalRows st;
     nextChunk := nextChunk st; childNodes := childNodes st;
     lastRepaintY := lastRepaintY st; lastScrolled := lastScrolled st;
     heap := heap st; next_ref := next_ref st; inflight := inflight st;
     requested := requested st; issued := v;
     lastCompleted := lastCompleted st |}.

Definition set_lastCompleted (v : option Fetch) (st : State) : State :=
  {| fixed := fixed st; loading := loading st; totalRows := totalRows st;
     nextChunk := nextChunk st; childNodes := childNodes st;
     lastRepaintY := lastRepaintY st; lastScrolled := lastScrolled st;
     heap := heap st; next_ref := next_ref st; inflight := inflight st;
     requested := requested st; issued := issued st; lastCompleted := v |}.

Definition set_style_height (v : string) (n : Node) : Node :=
  {| content := content n; class_vrow := class_vrow n;
     style_position := style_position n; style_top := style_top n;
     style_height := v; style_display := style_display n;
     attr_data_rm := attr_data_rm n; row_index := row_index n |}.

(** ** The constructor's helpers *)

(** [(config && config.w + 'px') || '100%'], for the property read by
    [field]. *)
Definition dimension (config : option Config) (field : Config → option Z) : string :=
  match config with
  | None => "100%"
  | Some c => let s := plus_px (field c) in if truthy s then s else "100%"
  end.

(** [VirtualList.createScroller(h)]; opacity, left and width are not
    modelled. *)
Definition createScroller (h : Z) : Node :=
  {| content := None; class_vrow := false;
     style_position := "absolute"; style_top := "0";
     style_height := px h; style_display := EmptyString;
     attr_data_rm := None; row_index := None |}.

(** [VirtualList.prototype.createRow]: the element built by the
    generator, with the class, position and top offset laid over it.
    The generator is taken to build a fresh element each time, displayed
    and without a [data-rm] attribute.  [i] is the exact sum of the
    window start and the position of the item; the code holds the
    double of that sum, [double_round i], and multiplies it by
    [itemHeight]. *)
Definition createRow (st : State) (item : Item) (i : Z) : Node :=
  {| content := Some (generatorFn st item); class_vrow := true;
     style_position := "absolute";
     style_top := times_px (double_round i) (itemHeight st);
     style_height := EmptyString; style_display := EmptyString;
     attr_data_rm := None; row_index := Some i |}.

(** ** The window scheduler *)

(** [this.getNodes(from, count, cb)]: the call is logged and stays
    outstanding until its callback runs. *)
Definition getNodes (from count : Z) (st : State) : State :=
  set_inflight (inflight st ++ [{| f_from := from; f_count := count |}])
    (set_issued (issued st ++ [(from, count)]) st).

(** [VirtualList.prototype._renderChunk], up to the [getNodes] call.
    Both call sites pass [self.container] as [node]. *)
Definition _renderChunk (from : Z) (st : State) : State :=
  let st := set_requested (requested st ++ [from]) st in
  if loading st then set_nextChunk (Some from) st
  else getNodes from (cachedItemsLen st) (set_loading true (set_nextChunk None st)).

(** [VirtualList.prototype.updateTotalRows]. *)
Definition updateTotalRows (n : Z) (st : State) : State :=
  let st := set_totalRows n st in
  set_heap (alter (set_style_height (times_px (itemHeight st) (totalRows st)))
              (scroller st) (heap st)) st.

(** A new element enters the store under a fresh reference. *)
Definition alloc (n : Node) (st : State) : nat * State :=
  (next_ref st, set_next_ref (S (next_ref st)) (set_heap (<[next_ref st := n]> (heap st)) st)).

(** The loop filling the document fragment:
    [fragment.appendChild(self.createRow(items\[i\], from + i))] for
    [i] from the given start. *)
Fixpoint fill_fragment (items : list Item) (from i : Z) (st : State) : list nat * State :=
  match items with
  | [] => ([], st)
  | item :: rest =>
      let '(r, st) := alloc (createRow st item (from + i)) st in
      let '(rs, st) := fill_fragment rest from (i + 1) st in
      (r :: rs, st)
  end.

(** [style.display = 'none'; setAttribute('data-rm', '1')]. *)
Definition mark_obsolete (n : Node) : Node :=
  {| content := content n; class_vrow := class_vrow n;
     style_position := style_position n; style_top := style_top n;
     style_height := style_height n; style_display := "none";
     attr_data_rm := Some "1"; row_index := row_index n |}.

(** The loop over [node.childNodes\[j\]] for [j] from 1. *)
Definition mark_children (children : list nat) (hp : gmap nat Node) : gmap nat Node :=
  foldl (λ hp r, alter mark_obsolete r hp) hp (drop 1 children).

(** The callback handed to [getNodes], for the fetch [f]. *)
Definition getNodes_callback (f : Fetch) (items : list Item) (newTotalRows : Z)
    (st : State) : State :=
  let st := updateTotalRows newTotalRows st in
  let '(fragment, st) := fill_fragment items (f_from f) 0 st in
  let st := set_heap (mark_children (childNodes st) (heap st)) st in
  let st := set_childNodes (childNodes st ++ fragment) st in
  let st := set_loading false st in
  let st := set_lastCompleted (Some f) st in
  match nextChunk st with
  | Some from' => _renderChunk from' st
  | None => st
  end.

(** The data source answers its [k]-th outstanding call.  [None]: there
    is no such call. *)
Definition fetch_done (k : nat) (items : list Item) (newTotalRows : Z)
    (st : State) : option State :=
  match inflight st !! k with
  | Some f => Some (getNodes_callback f items newTotalRows
                      (set_inflight (delete k (inflight st)) st))
  | None => None
  end.

(** ** The constructor *)

(** [new VirtualList(config)] for a [config] object.  [None] stands for
    the configurations whose arithmetic leaves the integers ([h] omitted,
    or [itemHeight] zero). *)
Definition VirtualList (config : Config) : option State :=
  match cfg_h config with
  | Some h =>
      if cfg_itemHeight config =? 0 then None
      else
        let screenItemsLen := Math_ceil_div h (cfg_itemHeight config) in
        let fx :=
          {| fx_itemHeight := cfg_itemHeight config;
             fx_generatorFn := cfg_generatorFn config;
             fx_scroller := 0%nat;
             fx_cachedItemsLen := screenItemsLen * 3;
             fx_container_width := dimension (Some config) cfg_w;
             fx_container_height := dimension (Some config) cfg_h;
             fx_screenItemsLen := screenItemsLen;
             fx_maxBuffer := screenItemsLen * cfg_itemHeight config |} in
        Some (_renderChunk 0
          {| fixed := fx; loading := false; totalRows := 0; nextChunk := None;
             childNodes := [0%nat]; lastRepaintY := None; lastScrolled := 0;
             heap := {[ 0%nat := createScroller 0 ]}; next_ref := 1%nat;
             inflight := []; requested := []; issued := []; lastCompleted := None |})
  | None => None
  end.

(** ** The scroll handler *)

(** [!lastRepaintY || Math.abs(scrollTop - lastRepaintY) > maxBuffer]. *)
Definition repaint_due (scrollTop : Z) (st : State) : bool :=
  match lastRepaintY st with
  | None => true
  | Some y => (y =? 0) || (Z.abs (scrollTop - y) >? maxBuffer st)
  end.

(** The body of the [setTimeout] callback of [onScroll], run at time
    [now] with [e.target.scrollTop = scrollTop]. *)
Definition onScroll_timeout (now scrollTop : Z) (st : State) : State :=
  let st :=
    if repaint_due scrollTop st then
      let first := parseInt_div scrollTop (itemHeight st) - screenItemsLen st in
      set_lastRepaintY (Some scrollTop)
        (_renderChunk (if first <? 0 then 0 else first) st)
    else st in
  set_lastScrolled now st.

(** ** The stale-node reaper *)

(** The selector [\[data-rm="1"\]] on the element behind a reference. *)
Definition matches_rm (hp : gmap nat Node) (r : nat) : bool :=
  match hp !! r with
  | Some n => bool_decide (attr_data_rm n = Some "1")
  | None => false
  end.

(** [document.querySelectorAll('\[data-rm="1"\]')] over the elements of
    the document, in document order. *)
Definition querySelectorAll_rm (hp : gmap nat Node) (document : list nat) : list nat :=
  filter (λ r, matches_rm hp r = true) document.

(** [container.removeChild(r)]; [None] is the [NotFoundError] raised
    when [r] is not a child. *)
Fixpoint removeChild (r : nat) (children : list nat) : option (list nat) :=
  match children with
  | [] => None
  | c :: rest =>
      if decide (r = c) then Some rest
      else (c ::.) <$> removeChild r rest
  end.

(** The loop over [badNodes]; the boolean is [false] when a
    [removeChild] raised and ended the loop early. *)
Fixpoint removeChildren (badNodes children : list nat) : list nat * bool :=
  match badNodes with
  | [] => (children, true)
  | r :: rest =>
      match removeChild r children with
      | Some children' => removeChildren rest children'
      | None => (children, false)
      end
  end.

(** The body of the [setInterval] callback, run at time [now] in a
    document whose elements are [document]. *)
Definition rmNodeInterval_tick (now : Z) (document : list nat) (st : State) : State * bool :=
  if now - lastScrolled st >? 100 then
    let badNodes := querySelectorAll_rm (heap st) document in
    let '(children, ok) := removeChildren badNodes (childNodes st) in
    (set_childNodes children st, ok)
  else (st, true).

(** ** Runs *)

Inductive Event :=
  | RenderChunk (from : Z)
  | FetchDone (k : nat) (items : list Item) (newTotalRows : Z)
  | ScrollCheck (now scrollTop : Z)
  | ReaperTick (now : Z) (document : list nat)
  | UpdateTotalRows (n : Z).

Definition step (ev : Event) (st : State) : option State :=
  match ev with
  | RenderChunk from => Some (_renderChunk from st)
  | FetchDone k items n => fetch_done k items n st
  | ScrollCheck now scrollTop => Some (onScroll_timeout now scrollTop st)
  | ReaperTick now document => Some (fst (rmNodeInterval_tick now document st))
  | UpdateTotalRows n => Some (updateTotalRows n st)
  end.

Fixpoint run (evs : list Event) (st : State) : option State :=
  match evs with
  | [] => Some st
  | ev :: rest =>
      match step ev st with
      | Some st' => run rest st'
      | None => None
      end
  end.

(** The data source's contract on one answer: at most [count] items. *)
Definition within_count (ev : Event) (st : State) : Prop :=
  match ev with
  | FetchDone k items _ =>
      ∀ f, inflight st !! k = Some f → Z.of_nat (length items) ≤ f_count f
  | _ => True
  end.

(** States of a list built from [config]: [reachable false] after any
    events, [reachable true] when every answer of the data source kept
    to the requested count. *)
Inductive reachable (config : Config) (strict : bool) : State → Prop :=
  | reach_new st :
      VirtualList config = Some st → reachable config strict st
  | reach_step st ev st' :
      reachable config strict st →
      (strict = true → within_count ev st) →
      step ev st = Some st' →
      reachable config strict st'.

(** The rows on display: the logical indices of the children that are
    rows and do not carry [data-rm="1"], in child order. *)
Definition live_index (hp : gmap nat Node) (r : nat) : option Z :=
  match hp !! r with
  | Some n => if bool_decide (attr_data_rm n = Some "1") then None else row_index n
  | None => None
  end.

Definition live_indices (st : State) : list Z :=
  omap (live_index (heap st)) (childNodes st).

(** ** Definitions used by the statements and proofs *)

(** [c] is the ceiling of the rational [a / b], [b] non-zero. *)
Definition is_ceil (c a b : Z) : Prop :=
  if 0 <? b then (c - 1) * b < a ≤ c * b else c * b ≤ a < (c - 1) * b.

(** The store after [fill_fragment], written on the store alone. *)
Fixpoint add_rows (st : State) (items : list Item) (from i : Z) (r : nat)
    (hp : gmap nat Node) : gmap nat Node :=
  match items with
  | [] => hp
  | item :: rest =>
      add_rows st rest from (i + 1) (S r) (<[r := createRow st item (from + i)]> hp)
  end.

(** The state in which the callback of [f] leaves the DOM, before it
    looks at [nextChunk]. *)
Definition mounted (f : Fetch) (items : list Item) (newTotalRows : Z)
    (st : State) : State :=
  let st1 := updateTotalRows newTotalRows st in
  let hp := add_rows st items (f_from f) 0 (next_ref st) (heap st1) in
  set_lastCompleted (Some f)
    (set_loading false
      (set_childNodes (childNodes st ++ seq (next_ref st) (length items))
        (set_heap (mark_children (childNodes st) hp)
          (set_next_ref (length items + next_ref st)%nat st1)))).

(** Scheduler invariant: a fetch is outstanding exactly while [loading]
    is set, and a window is pending only then. *)
Definition sched_inv (st : State) : Prop :=
  if loading st then ∃ f, inflight st = [f]
  else inflight st = [] ∧ nextChunk st = None.

(** DOM invariant: the scroller is child 0 and carries no flag, no
    element is mounted twice, every child is in the store under a
    reference below [next_ref]. *)
Definition dom_inv (st : State) : Prop :=
  (∃ rest, childNodes st = scroller st :: rest) ∧
  NoDup (childNodes st) ∧
  (∀ r, r ∈ childNodes st → (r < next_ref st)%nat ∧ is_Some (heap st !! r)) ∧
  (∃ n, heap st !! scroller st = Some n ∧ attr_data_rm n = None ∧ row_index n = None).

(** What the constructor fixes, in terms of the configuration. *)
Definition fixed_inv (config : Config) (st : State) : Prop :=
  ∃ h, cfg_h config = Some h ∧ cfg_itemHeight config ≠ 0 ∧
    itemHeight st = cfg_itemHeight config ∧
    screenItemsLen st = Math_ceil_div h (cfg_itemHeight config) ∧
    cachedItemsLen st = 3 * Math_ceil_div h (cfg_itemHeight config) ∧
    maxBuffer st = Math_ceil_div h (cfg_itemHeight config) * cfg_itemHeight config ∧
    Forall (λ p, p.2 = cachedItemsLen st) (issued st).


End Model.

Arguments Config : clear implicits.
Arguments Node : clear implicits.
Arguments Fixed : clear implicits.
Arguments State : clear implicits.
Arguments Event : clear implicits.

(** ** A concrete list

    Items and row contents are numbers, the generator is the identity;
    rows are 20 pixels high in a viewport of 200, the width is left out. *)

Definition demo_config : Config nat nat :=
  {| cfg_w := None; cfg_h := Some 200; cfg_itemHeight := 20;
     cfg_generatorFn := λ x, x |}.

(** The same list with the height left out as well. *)
Definition demo_config_no_h : Config nat nat :=
  {| cfg_w := None; cfg_h := None; cfg_itemHeight := 20;
     cfg_generatorFn := λ x, x |}.

(** The list right after construction: [getNodes(0, 30, cb)] is
    outstanding. *)
Definition demo_new : State nat nat :=
  _renderChunk 0
    {| fixed :=
         {| fx_itemHeight := 20; fx_generatorFn := λ x, x; fx_scroller := 0%nat;
            fx_cachedItemsLen := 30; fx_container_width := "undefinedpx";
            fx_container_height := "200px"; fx_screenItemsLen := 10;
            fx_maxBuffer := 200 |};
       loading := false; totalRows := 0; nextChunk := None;
       childNodes := [0%nat]; lastRepaintY := None; lastScrolled := 0;
       heap := {[ 0%nat := createScroller 0 ]}; next_ref := 1%nat;
       inflight := []; requested := []; issued := []; lastCompleted := None |}.

(** The first fetch of [demo_new]. *)
Definition demo_fetch : Fetch := {| f_from := 0; f_count := 30 |}.

(** The list after the data source answered the first fetch with three
    items and a total of 1000 rows. *)
Definition demo_shown : State nat nat :=
  getNodes_callback demo_fetch [5; 6; 7]%nat 1000 (set_inflight [] demo_new).

(** The list after a scroll check at the top of the list and the answer
    to the fetch it caused: the last accepted repaint position is 0 and
    no fetch is outstanding. *)
Definition demo_at_top : State nat nat :=
  getNodes_callback demo_fetch [5; 6; 7]%nat 1000
    (set_inflight [] (onScroll_timeout 1000 0 demo_shown)).

(** ** The container and further invariants *)

Section Surface.

Context {Item Content : Type}.




(** What [createRow] lays over an element: the class, the position and
    the top offset of its logical index. *)
Definition row_shaped (st : State Item Content) (n : Node Content) : Prop :=
  ∃ i, row_index n = Some i ∧ class_vrow n = true ∧
       style_position n = "absolute" ∧
       style_top n = times_px (double_round i) (itemHeight st).

(** Store invariant: references are below [next_ref], an element that
    carries [data-rm="1"] is hidden, and every element but the scroller
    is a row. *)
Definition store_inv (st : State Item Content) : Prop :=
  ∀ r n, heap st !! r = Some n →
    (r < next_ref st)%nat ∧
    (attr_data_rm n = Some "1" → style_display n = "none") ∧
    (r ≠ scroller st → row_shaped st n).


(** The window requested last is pending or is the one fetched last,
    and every fetched window was requested. *)
Definition request_inv (st : State Item Content) : Prop :=
  last (requested st) =
    match nextChunk st with
    | Some from => Some from
    | None => fst <$> last (issued st)
    end ∧
  ∀ p, p ∈ issued st → p.1 ∈ requested st.



End Surface.

(** The concrete list after a reaper tick at time 2000 removed its three
    obsolete rows. *)
Definition demo_reaped : State nat nat :=
  (rmNodeInterval_tick 2000 [0; 1; 2; 3; 4; 5; 6]%nat demo_at_top).1.






(** The concrete list with a second fetch outstanding, for the window
    starting at 60. *)
Definition demo_refetch : State nat nat := _renderChunk 60 demo_shown.

(** The concrete list after its first scroll check, at offset 5000. *)
Definition demo_scrolled : State nat nat := onScroll_timeout 1000 5000 demo_shown.



(** * Proofs *)

Section Proofs.

Context {Item Content : Type}.
Implicit Types (st : State Item Content) (config : Config Item Content).
Implicit Types (hp : gmap nat (Node Content)) (items : list Item).

(** ** Arithmetic *)

Lemma Math_ceil_div_is_ceil (a b : Z) : b ≠ 0 → is_ceil (Math_ceil_div a b) a b.
Proof.
  intros Hb. unfold is_ceil, Math_ceil_div.
  destruct (Z.ltb_spec 0 b) as [Hpos|Hneg].
  - pose proof (Z.div_mod (- a) b Hb) as Hdm.
    pose proof (Z.mod_pos_bound (- a) b Hpos) as Hm. nia.
  - assert (b < 0) as Hlt by lia.
    pose proof (Z.div_mod (- a) b Hb) as Hdm.
    pose proof (Z.mod_neg_bound (- a) b Hlt) as Hm. nia.
Qed.

Lemma is_ceil_unique (c c' a b : Z) : is_ceil c a b → is_ceil c' a b → c = c'.
Proof.
  unfold is_ceil. destruct (Z.ltb_spec 0 b); intros; nia.
Qed.

Lemma parseInt_div_floor (a b : Z) :
  0 ≤ a → 0 < b → a = 0 ∨ b ≤ a * 1000000 → parseInt_div a b = a / b.
Proof.
  intros Ha Hb Hq. unfold parseInt_div.
  destruct (Z.eqb_spec a 0) as [->|Hne]; [by rewrite Z.div_0_l by lia|].
  destruct (Z.ltb_spec (Z.abs a * 1000000) (Z.abs b)) as [Hlt|_]; [lia|].
  apply Z.quot_div_nonneg; lia.
Qed.




(** ** Strings *)

Lemma append_px_not_percent (s : string) : s +:+ "px" ≠ "100%".
Proof.
  destruct s as [|a [|b [|c [|d [|e s]]]]]; simpl; discriminate.
Qed.

Lemma truthy_append_px (s : string) : truthy (s +:+ "px") = true.
Proof. destruct s; reflexivity. Qed.

Lemma dimension_omitted config (field : Config Item Content → option Z) :
  field config = None → dimension (Some config) field = "undefinedpx".
Proof. intros H. unfold dimension, plus_px. rewrite H. reflexivity. Qed.


Lemma dimension_never_full config (field : Config Item Content → option Z) :
  dimension (Some config) field ≠ "100%".
Proof.
  unfold dimension, plus_px, px.
  destruct (field config) as [n|]; rewrite truthy_append_px;
    apply append_px_not_percent.
Qed.

(** ** The document fragment *)

Lemma set_heap_next_ref_id st :
  set_next_ref (next_ref st) (set_heap (heap st) st) = st.
Proof. by destruct st. Qed.

Lemma createRow_fixed st st' item i :
  fixed st = fixed st' → createRow st item i = createRow st' item i.
Proof.
  intros H. unfold createRow, generatorFn, itemHeight. by rewrite H.
Qed.

Lemma add_rows_fixed st st' items from i r hp :
  fixed st = fixed st' → add_rows st items from i r hp = add_rows st' items from i r hp.
Proof.
  intros H. revert i r hp. induction items as [|item rest IH]; intros i r hp.
  - reflexivity.
  - simpl. by rewrite IH, (createRow_fixed st st' item (from + i) H).
Qed.

Lemma fill_fragment_eq items from i st :
  fill_fragment items from i st =
    (seq (next_ref st) (length items),
     set_next_ref (length items + next_ref st)%nat
       (set_heap (add_rows st items from i (next_ref st) (heap st)) st)).
Proof.
  revert i st. induction items as [|item rest IH]; intros i st.
  - simpl. by rewrite set_heap_next_ref_id.
  - simpl. rewrite IH. simpl. rewrite Nat.add_succ_r.
    f_equal. rewrite (add_rows_fixed _ st) by reflexivity. by destruct st.
Qed.

Lemma getNodes_callback_eq f items n st :
  getNodes_callback f items n st =
    match nextChunk st with
    | Some from' => _renderChunk from' (mounted f items n st)
    | None => mounted f items n st
    end.
Proof.
  unfold getNodes_callback. rewrite fill_fragment_eq.
  rewrite (add_rows_fixed (updateTotalRows n st) st) by reflexivity.
  by destruct st.
Qed.


(** ** The scheduler *)

Lemma renderChunk_loading from st :
  loading st = true →
  _renderChunk from st =
    set_nextChunk (Some from) (set_requested (requested st ++ [from]) st).
Proof. intros H. unfold _renderChunk. simpl. by rewrite H. Qed.

Lemma renderChunk_idle from st :
  loading st = false →
  _renderChunk from st =
    getNodes from (cachedItemsLen st)
      (set_loading true (set_nextChunk None
         (set_requested (requested st ++ [from]) st))).
Proof. intros H. unfold _renderChunk. simpl. by rewrite H. Qed.

Lemma renderChunk_fixed from st : fixed (_renderChunk from st) = fixed st.
Proof.
  destruct (loading st) eqn:E;
    [rewrite renderChunk_loading | rewrite renderChunk_idle]; done.
Qed.

Lemma renderChunk_dom from st :
  childNodes (_renderChunk from st) = childNodes st ∧
  heap (_renderChunk from st) = heap st ∧
  next_ref (_renderChunk from st) = next_ref st ∧
  lastCompleted (_renderChunk from st) = lastCompleted st.
Proof.
  destruct (loading st) eqn:E;
    [rewrite renderChunk_loading | rewrite renderChunk_idle]; done.
Qed.

Lemma renderChunk_requested from st :
  requested (_renderChunk from st) = requested st ++ [from].
Proof.
  destruct (loading st) eqn:E;
    [rewrite renderChunk_loading | rewrite renderChunk_idle]; done.
Qed.

Lemma renderChunk_issued from st :
  issued (_renderChunk from st) =
    if loading st then issued st else issued st ++ [(from, cachedItemsLen st)].
Proof.
  destruct (loading st) eqn:E;
    [rewrite renderChunk_loading | rewrite renderChunk_idle]; done.
Qed.

Lemma renderChunk_inflight from st :
  inflight (_renderChunk from st) =
    if loading st then inflight st
    else inflight st ++ [{| f_from := from; f_count := cachedItemsLen st |}].
Proof.
  destruct (loading st) eqn:E;
    [rewrite renderChunk_loading | rewrite renderChunk_idle]; done.
Qed.

Lemma renderChunk_flags from st :
  loading (_renderChunk from st) = true ∧
  nextChunk (_renderChunk from st) = if loading st then Some from else None.
Proof.
  destruct (loading st) eqn:E;
    [rewrite renderChunk_loading | rewrite renderChunk_idle]; done.
Qed.

Lemma sched_inv_renderChunk from st : sched_inv st → sched_inv (_renderChunk from st).
Proof.
  unfold sched_inv. intros H.
  destruct (renderChunk_flags from st) as [-> _].
  rewrite renderChunk_inflight.
  destruct (loading st).
  - done.
  - destruct H as [-> _]. eauto.
Qed.

Lemma fetch_done_inv k items n st st' :
  sched_inv st → fetch_done k items n st = Some st' →
  ∃ f, k = 0%nat ∧ loading st = true ∧ inflight st = [f] ∧
       st' = getNodes_callback f items n (set_inflight [] st).
Proof.
  unfold sched_inv, fetch_done. intros Hs Hd.
  destruct (loading st).
  - destruct Hs as [f Hf]. rewrite Hf in Hd. exists f.
    destruct k as [|k]; simpl in Hd; [|done].
    inversion Hd. by rewrite Hf.
  - destruct Hs as [Hf _]. by rewrite Hf in Hd.
Qed.

Lemma sched_inv_callback f items n st :
  inflight st = [] → sched_inv (getNodes_callback f items n st).
Proof.
  intros Hi. rewrite getNodes_callback_eq.
  assert (loading (mounted f items n st) = false) as Hl by done.
  assert (inflight (mounted f items n st) = []) as Hm by done.
  destruct (nextChunk st) as [from'|] eqn:E.
  - unfold sched_inv.
    destruct (renderChunk_flags from' (mounted f items n st)) as [-> _].
    rewrite renderChunk_inflight, Hl, Hm. eauto.
  - unfold sched_inv. rewrite Hl. done.
Qed.

Lemma sched_inv_onScroll now y st : sched_inv st → sched_inv (onScroll_timeout now y st).
Proof.
  intros H. unfold onScroll_timeout.
  destruct (repaint_due y st); [|done].
  by apply (sched_inv_renderChunk _ st).
Qed.

Lemma sched_inv_tick now document st :
  sched_inv st → sched_inv (rmNodeInterval_tick now document st).1.
Proof.
  intros H. unfold rmNodeInterval_tick.
  destruct (now - lastScrolled st >? 100); [|done].
  by destruct (removeChildren _ _).
Qed.

Lemma sched_inv_step ev st st' : sched_inv st → step ev st = Some st' → sched_inv st'.
Proof.
  intros H Hstep. destruct ev as [from|k items n|now y|now document|n]; simpl in Hstep.
  - inversion Hstep. by apply sched_inv_renderChunk.
  - destruct (fetch_done_inv _ _ _ _ _ H Hstep) as (f & _ & _ & _ & ->).
    by apply sched_inv_callback.
  - inversion Hstep. by apply sched_inv_onScroll.
  - inversion Hstep. by apply sched_inv_tick.
  - inversion Hstep. done.
Qed.

Lemma VirtualList_inv config st :
  VirtualList config = Some st →
  ∃ h, cfg_h config = Some h ∧ cfg_itemHeight config ≠ 0 ∧
    let c := Math_ceil_div h (cfg_itemHeight config) in
    fixed st =
      {| fx_itemHeight := cfg_itemHeight config;
         fx_generatorFn := cfg_generatorFn config;
         fx_scroller := 0%nat;
         fx_cachedItemsLen := c * 3;
         fx_container_width := dimension (Some config) cfg_w;
         fx_container_height := dimension (Some config) cfg_h;
         fx_screenItemsLen := c;
         fx_maxBuffer := c * cfg_itemHeight config |} ∧
    loading st = true ∧ nextChunk st = None ∧ totalRows st = 0 ∧
    childNodes st = [0%nat] ∧ heap st = {[ 0%nat := createScroller 0 ]} ∧
    next_ref st = 1%nat ∧ lastRepaintY st = None ∧ lastScrolled st = 0 ∧
    inflight st = [{| f_from := 0; f_count := c * 3 |}] ∧
    requested st = [0] ∧ issued st = [(0, c * 3)] ∧ lastCompleted st = None.
Proof.
  unfold VirtualList. intros H.
  destruct (cfg_h config) as [h|]; [|done]. exists h.
  destruct (Z.eqb_spec (cfg_itemHeight config) 0) as [|Hne]; [done|].
  inversion H. repeat split; done.
Qed.

Lemma sched_inv_new config st : VirtualList config = Some st → sched_inv st.
Proof.
  intros H. destruct (VirtualList_inv _ _ H) as (h & _ & _ & Hst).
  destruct Hst as (_ & Hl & Hn & _ & _ & _ & _ & _ & _ & Hi & _).
  unfold sched_inv. rewrite Hl, Hi. eauto.
Qed.

Lemma reachable_sched_inv config strict st : reachable config strict st → sched_inv st.
Proof.
  induction 1 as [st H|st ev st' _ IH _ Hstep].
  - by eapply sched_inv_new.
  - by eapply sched_inv_step.
Qed.

(** ** What the constructor fixes *)

Lemma step_fixed ev st st' : step ev st = Some st' → fixed st' = fixed st.
Proof.
  intros Hstep. destruct ev as [from|k items n|now y|now document|n]; simpl in Hstep.
  - inversion Hstep. apply renderChunk_fixed.
  - unfold fetch_done in Hstep. destruct (inflight st !! k) as [f|]; [|done].
    inversion Hstep. rewrite getNodes_callback_eq.
    destruct (nextChunk _); [rewrite renderChunk_fixed|]; done.
  - inversion Hstep. unfold onScroll_timeout.
    destruct (repaint_due y st); [|done].
    simpl. apply renderChunk_fixed.
  - inversion Hstep. unfold rmNodeInterval_tick.
    destruct (now - lastScrolled st >? 100); [|done].
    by destruct (removeChildren _ _).
  - inversion Hstep. done.
Qed.

Lemma step_issued ev st st' :
  step ev st = Some st' →
  issued st' = issued st ∨ ∃ from, issued st' = issued st ++ [(from, cachedItemsLen st)].
Proof.
  intros Hstep. destruct ev as [from|k items n|now y|now document|n]; simpl in Hstep.
  - inversion Hstep. rewrite renderChunk_issued. destruct (loading st); eauto.
  - unfold fetch_done in Hstep. destruct (inflight st !! k) as [f|]; [|done].
    inversion Hstep. rewrite getNodes_callback_eq.
    destruct (nextChunk _) as [from'|]; [|by left].
    rewrite renderChunk_issued. right. by exists from'.
  - inversion Hstep. unfold onScroll_timeout.
    destruct (repaint_due y st); [|by left].
    simpl. rewrite renderChunk_issued. destruct (loading st); eauto.
  - inversion Hstep. unfold rmNodeInterval_tick.
    destruct (now - lastScrolled st >? 100); [|by left].
    destruct (removeChildren _ _). by left.
  - inversion Hstep. by left.
Qed.

Lemma reachable_fixed_inv config strict st : reachable config strict st → fixed_inv config st.
Proof.
  induction 1 as [st H|st ev st' _ IH _ Hstep].
  - destruct (VirtualList_inv _ _ H) as (h & Hh & Hne & Hfx & Hrest).
    destruct Hrest as (_ & _ & _ & _ & _ & _ & _ & _ & _ & _ & Hi & _).
    exists h. unfold itemHeight, screenItemsLen, cachedItemsLen, maxBuffer.
    rewrite Hfx, Hi. simpl. repeat split; try done; try lia.
    constructor; [simpl; lia | constructor].
  - destruct IH as (h & Hh & Hne & H1 & H2 & H3 & H4 & H5).
    pose proof (step_fixed _ _ _ Hstep) as Hfx.
    exists h. unfold itemHeight, screenItemsLen, cachedItemsLen, maxBuffer in *.
    rewrite Hfx. repeat split; try done.
    destruct (step_issued _ _ _ Hstep) as [->|[from ->]]; [done|].
    apply Forall_app. split; [done|]. constructor; [done | constructor].
Qed.

(** ** The element store *)

Lemma lookup_foldl_alter (f : Node Content → Node Content) (l : list nat) hp r :
  (∀ x, f (f x) = f x) →
  foldl (λ hp r, alter f r hp) hp l !! r =
    if decide (r ∈ l) then f <$> hp !! r else hp !! r.
Proof.
  intros Hf. revert hp. induction l as [|x l IH]; intros hp; simpl.
  - destruct (decide (r ∈ [])) as [Hin|_]; [|done]. by apply elem_of_nil in Hin.
  - rewrite IH. destruct (decide (r = x)) as [->|Hne].
    + rewrite lookup_alter_eq.
      destruct (decide (x ∈ x :: l)) as [_|Hnin]; [|by destruct Hnin; left].
      destruct (decide (x ∈ l)); [|done].
      destruct (hp !! x); simpl; by rewrite ?Hf.
    + rewrite lookup_alter_ne by done.
      destruct (decide (r ∈ l)) as [Hin|Hnin];
        destruct (decide (r ∈ x :: l)) as [Hin'|Hnin']; try done.
      * destruct Hnin'. by right.
      * apply elem_of_cons in Hin'. tauto.
Qed.

Lemma lookup_mark_children (children : list nat) hp r :
  mark_children children hp !! r =
    if decide (r ∈ drop 1 children) then mark_obsolete <$> hp !! r else hp !! r.
Proof. unfold mark_children. by apply lookup_foldl_alter. Qed.

Lemma lookup_add_rows_lt st items from i (r k : nat) hp :
  (k < r)%nat → add_rows st items from i r hp !! k = hp !! k.
Proof.
  revert i r hp. induction items as [|item rest IH]; intros i r hp Hk; simpl.
  - done.
  - rewrite IH by lia. apply lookup_insert_ne. lia.
Qed.

Lemma lookup_add_rows_new st items from i (r j : nat) hp item :
  items !! j = Some item →
  add_rows st items from i r hp !! (r + j)%nat = Some (createRow st item (from + (i + Z.of_nat j))).
Proof.
  revert i r j hp. induction items as [|x rest IH]; intros i r j hp Hj; [done|].
  destruct j as [|j]; simpl in *.
  - inversion Hj; subst. rewrite lookup_add_rows_lt by lia.
    rewrite Nat.add_0_r, lookup_insert_eq. do 2 f_equal. lia.
  - replace (r + S j)%nat with (S r + j)%nat by lia.
    rewrite (IH (i + 1) (S r) j _ Hj). do 2 f_equal. lia.
Qed.

Lemma heap_mounted f items n st :
  heap (mounted f items n st) =
    mark_children (childNodes st)
      (add_rows st items (f_from f) 0 (next_ref st)
         (alter (set_style_height (times_px (itemHeight st) n)) (scroller st) (heap st))).
Proof. reflexivity. Qed.

Lemma childNodes_mounted f items n st :
  childNodes (mounted f items n st) = childNodes st ++ seq (next_ref st) (length items).
Proof. reflexivity. Qed.

Lemma scroller_not_later st : dom_inv st → scroller st ∉ drop 1 (childNodes st).
Proof.
  intros ([rest Hc] & Hnd & _). rewrite Hc in *. simpl.
  by apply NoDup_cons_1_1.
Qed.

Lemma lookup_mounted_scroller f items n st :
  dom_inv st →
  heap (mounted f items n st) !! scroller st =
    set_style_height (times_px (itemHeight st) n) <$> heap st !! scroller st.
Proof.
  intros Hd. rewrite heap_mounted, lookup_mark_children.
  rewrite decide_False by by apply scroller_not_later.
  destruct Hd as ([rest Hc] & _ & Hlt & _).
  rewrite lookup_add_rows_lt, lookup_alter_eq; [done|].
  apply Hlt. rewrite Hc. left.
Qed.

Lemma lookup_mounted_old f items n st r :
  dom_inv st → r ∈ drop 1 (childNodes st) →
  heap (mounted f items n st) !! r = mark_obsolete <$> heap st !! r.
Proof.
  intros Hd Hr. rewrite heap_mounted, lookup_mark_children.
  rewrite decide_True by done.
  assert (r ∈ childNodes st) as Hin.
  { destruct Hd as ([rest Hc] & _). rewrite Hc in *. by right. }
  assert (r ≠ scroller st) as Hne.
  { intros ->. by apply (scroller_not_later st). }
  destruct Hd as (_ & _ & Hlt & _).
  rewrite lookup_add_rows_lt by by apply Hlt.
  by rewrite lookup_alter_ne.
Qed.

Lemma lookup_mounted_new f items n st (j : nat) item :
  dom_inv st → items !! j = Some item →
  heap (mounted f items n st) !! (next_ref st + j)%nat =
    Some (createRow st item (f_from f + Z.of_nat j)).
Proof.
  intros Hd Hj. rewrite heap_mounted, lookup_mark_children.
  rewrite decide_False.
  - by rewrite (lookup_add_rows_new _ _ _ _ _ _ _ _ Hj).
  - intros Hin. apply (subseteq_drop 1) in Hin.
    destruct Hd as (_ & _ & Hlt & _). apply Hlt in Hin. lia.
Qed.

(** ** Removing children *)

Lemma removeChild_sublist (r : nat) (c c' : list nat) :
  removeChild r c = Some c' → c' `sublist_of` c.
Proof.
  revert c'. induction c as [|x c IH]; intros c' H; simpl in H; [done|].
  destruct (decide (r = x)) as [->|Hne].
  - inversion H; subst. by apply sublist_cons.
  - destruct (removeChild r c) as [c0|]; [|done]. inversion H; subst.
    apply sublist_skip. by apply IH.
Qed.

Lemma removeChild_head (r x : nat) (rest c' : list nat) :
  r ≠ x → removeChild r (x :: rest) = Some c' → ∃ rest', c' = x :: rest'.
Proof.
  intros Hne H. simpl in H. rewrite decide_False in H by done.
  destruct (removeChild r rest) as [c0|]; [|done]. inversion H. eauto.
Qed.


Lemma removeChildren_sublist (bad c : list nat) :
  (removeChildren bad c).1 `sublist_of` c.
Proof.
  revert c. induction bad as [|r bad IH]; intros c; simpl; [done|].
  destruct (removeChild r c) as [c0|] eqn:E; [|done].
  etrans; [apply IH|]. by eapply removeChild_sublist.
Qed.

Lemma removeChildren_head (bad : list nat) (x : nat) (rest : list nat) :
  x ∉ bad → ∃ rest', (removeChildren bad (x :: rest)).1 = x :: rest'.
Proof.
  revert rest. induction bad as [|r bad IH]; intros rest Hx; [by eexists|].
  apply not_elem_of_cons in Hx as [Hne Hx].
  cbn [removeChildren].
  destruct (removeChild r (x :: rest)) as [c0|] eqn:E; [|by eexists].
  destruct (removeChild_head r x rest c0) as [rest' ->]; [done..|].
  by apply IH.
Qed.


Lemma removeChild_middle (r : nat) (pre c : list nat) :
  r ∉ pre → removeChild r (pre ++ r :: c) = Some (pre ++ c).
Proof.
  induction pre as [|x pre IH]; intros Hr; simpl.
  - by rewrite decide_True.
  - apply not_elem_of_cons in Hr as [Hne Hr].
    rewrite decide_False by done. by rewrite IH.
Qed.

Lemma removeChildren_filter (b : nat → bool) (pre c : list nat) :
  NoDup (pre ++ c) →
  removeChildren (filter (λ r, b r = true) c) (pre ++ c) =
    (pre ++ filter (λ r, b r = false) c, true).
Proof.
  revert pre. induction c as [|x c IH]; intros pre Hnd.
  - done.
  - rewrite !filter_cons. destruct (b x) eqn:Hb.
    + rewrite decide_True by done. rewrite decide_False by done.
      cbn [removeChildren]. rewrite removeChild_middle.
      * apply IH. apply NoDup_app in Hnd as (H1 & H2 & H3).
        apply NoDup_cons in H3 as [_ H3]. apply NoDup_app. split_and!; [done| |done].
        intros y Hy Hyc. apply (H2 y Hy). by right.
      * apply NoDup_app in Hnd as (_ & H2 & _). intros Hx. apply (H2 x Hx). by left.
    + rewrite decide_False by done. rewrite decide_True by done.
      specialize (IH (pre ++ [x])). rewrite <- !(assoc_L (++)) in IH. by apply IH.
Qed.

(** ** The DOM invariant *)

Lemma dom_inv_ext st st' :
  fixed st' = fixed st → childNodes st' = childNodes st →
  heap st' = heap st → next_ref st' = next_ref st →
  dom_inv st → dom_inv st'.
Proof.
  unfold dom_inv, scroller. by intros -> -> -> ->.
Qed.

Lemma dom_inv_renderChunk from st : dom_inv st → dom_inv (_renderChunk from st).
Proof.
  destruct (renderChunk_dom from st) as (H1 & H2 & H3 & _).
  apply dom_inv_ext; try done. apply renderChunk_fixed.
Qed.

Lemma dom_inv_updateTotalRows n st : dom_inv st → dom_inv (updateTotalRows n st).
Proof.
  intros (Hhd & Hnd & Hch & (s & Hs & Ha & Hr)).
  split_and!; try done.
  - intros r Hin. destruct (Hch r Hin) as [Hlt Hsome]. split; [done|].
    change (is_Some (alter (set_style_height (times_px (itemHeight st) n))
                       (scroller st) (heap st) !! r)).
    rewrite lookup_alter. case_decide; subst; [|done]. by apply fmap_is_Some.
  - exists (set_style_height (times_px (itemHeight st) n) s).
    change (alter (set_style_height (times_px (itemHeight st) n))
              (scroller st) (heap st) !! scroller st = Some (set_style_height (times_px (itemHeight st) n) s) ∧
            attr_data_rm s = None ∧ row_index s = None).
    by rewrite lookup_alter_eq, Hs.
Qed.

Lemma dom_inv_mounted f items n st : dom_inv st → dom_inv (mounted f items n st).
Proof.
  intros Hd. pose proof Hd as (Hhd & Hnd & Hch & (s & Hs & Ha & Hr)).
  unfold dom_inv. rewrite childNodes_mounted.
  change (scroller (mounted f items n st)) with (scroller st).
  change (next_ref (mounted f items n st)) with (length items + next_ref st)%nat.
  split_and!.
  - destruct Hhd as [rest ->]. by eexists.
  - apply NoDup_app. split_and!; [done| |apply NoDup_seq].
    intros r Hin Hseq. apply elem_of_seq in Hseq. apply Hch in Hin. lia.
  - intros r [Hin|Hin]%elem_of_app.
    + split; [apply Hch in Hin; lia|].
      destruct (decide (r = scroller st)) as [->|Hne].
      * rewrite lookup_mounted_scroller, Hs by done. by eexists.
      * rewrite lookup_mounted_old; [apply fmap_is_Some; by apply Hch|done|].
        destruct Hhd as [rest Hc]. rewrite Hc in *. simpl.
        apply elem_of_cons in Hin as [?|?]; done.
    + apply elem_of_seq in Hin. split; [lia|].
      destruct (lookup_lt_is_Some_2 items (r - next_ref st)) as [item Hitem]; [lia|].
      replace r with (next_ref st + (r - next_ref st))%nat by lia.
      rewrite (lookup_mounted_new f items n st _ item) by done. by eexists.
  - exists (set_style_height (times_px (itemHeight st) n) s).
    by rewrite lookup_mounted_scroller, Hs.
Qed.

Lemma dom_inv_callback f items n st : dom_inv st → dom_inv (getNodes_callback f items n st).
Proof.
  intros Hd. rewrite getNodes_callback_eq.
  destruct (nextChunk st); [apply dom_inv_renderChunk|]; by apply dom_inv_mounted.
Qed.

Lemma scroller_not_matched st : dom_inv st → matches_rm (heap st) (scroller st) = false.
Proof.
  intros (_ & _ & _ & (s & Hs & Ha & _)). unfold matches_rm. rewrite Hs, Ha.
  done.
Qed.

Lemma dom_inv_tick now document st :
  dom_inv st → dom_inv (rmNodeInterval_tick now document st).1.
Proof.
  intros Hd. unfold rmNodeInterval_tick.
  destruct (now - lastScrolled st >? 100); [|done].
  pose proof (removeChildren_sublist
    (querySelectorAll_rm (heap st) document) (childNodes st)) as Hsub.
  assert (scroller st ∉ querySelectorAll_rm (heap st) document) as Hnot.
  { unfold querySelectorAll_rm. rewrite list_elem_of_filter.
    rewrite scroller_not_matched by done. by intros []. }
  destruct Hd as ([rest Hc] & Hnd & Hch & Hs).
  rewrite Hc in Hsub.
  destruct (removeChildren_head _ _ rest Hnot) as [rest' Hrest'].
  rewrite Hc. rewrite Hrest' in Hsub.
  destruct (removeChildren _ (scroller st :: rest)) as [c ok]. simpl in *. subst c.
  split_and!; simpl.
  - by eexists.
  - eapply sublist_NoDup; [done|]. by rewrite Hc.
  - intros r Hin. apply Hch. rewrite Hc. by eapply elem_of_sublist.
  - done.
Qed.

Lemma dom_inv_step ev st st' : dom_inv st → step ev st = Some st' → dom_inv st'.
Proof.
  intros H Hstep. destruct ev as [from|k items n|now y|now document|n]; simpl in Hstep.
  - inversion Hstep. by apply dom_inv_renderChunk.
  - unfold fetch_done in Hstep. destruct (inflight st !! k) as [f|]; [|done].
    inversion Hstep. by apply dom_inv_callback.
  - inversion Hstep. unfold onScroll_timeout.
    destruct (repaint_due y st); [|done].
    by apply (dom_inv_renderChunk _ st).
  - inversion Hstep. by apply dom_inv_tick.
  - inversion Hstep. by apply dom_inv_updateTotalRows.
Qed.

Lemma dom_inv_new config st : VirtualList config = Some st → dom_inv st.
Proof.
  intros H. destruct (VirtualList_inv _ _ H) as (h & _ & _ & Hst).
  destruct Hst as (Hfx & _ & _ & _ & Hc & Hh & Hn & _).
  unfold dom_inv, scroller. rewrite Hfx, Hc, Hh, Hn. simpl. split_and!.
  - by eexists.
  - apply NoDup_singleton.
  - intros r ->%list_elem_of_singleton. split; [lia|].
    rewrite lookup_singleton_eq. by eexists.
  - exists (createScroller 0). by rewrite lookup_singleton_eq.
Qed.

Lemma reachable_dom_inv config strict st : reachable config strict st → dom_inv st.
Proof.
  induction 1 as [st H|st ev st' _ IH _ Hstep].
  - by eapply dom_inv_new.
  - by eapply dom_inv_step.
Qed.

(** ** The rows on display *)

Lemma live_index_alter_height (v : string) (k : nat) hp r :
  live_index (alter (set_style_height v) k hp) r = live_index hp r.
Proof.
  unfold live_index. rewrite lookup_alter. case_decide; [subst|done].
  by destruct (hp !! r).
Qed.

Lemma live_indices_ext st st' :
  childNodes st' = childNodes st → heap st' = heap st →
  live_indices st' = live_indices st.
Proof. unfold live_indices. by intros -> ->. Qed.

Lemma live_indices_renderChunk from st :
  live_indices (_renderChunk from st) = live_indices st.
Proof.
  destruct (renderChunk_dom from st) as (H1 & H2 & _). by apply live_indices_ext.
Qed.

Lemma live_indices_updateTotalRows n st :
  live_indices (updateTotalRows n st) = live_indices st.
Proof.
  unfold live_indices.
  change (omap (live_index (alter (set_style_height (times_px (itemHeight st) n))
                              (scroller st) (heap st))) (childNodes st) =
          omap (live_index (heap st)) (childNodes st)).
  apply list_omap_ext, Forall2_same_length_lookup_2; [done|].
  intros i r r' Hr Hr'. assert (r = r') as <- by congruence.
  apply live_index_alter_height.
Qed.

Lemma omap_none {A B} (g : A → option B) (l : list A) :
  (∀ x, x ∈ l → g x = None) → omap g l = [].
Proof.
  induction l as [|x l IH]; intros H; simpl; [done|].
  rewrite (H x) by left. apply IH. intros y Hy. apply H. by right.
Qed.

Lemma omap_seq_rows (g : nat → option Z) (r : nat) (from : Z) (len : nat) :
  (∀ j : nat, (j < len)%nat → g (r + j)%nat = Some (from + Z.of_nat j)) →
  omap g (seq r len) = seqZ from (Z.of_nat len).
Proof.
  induction len as [|len IH]; intros H; [done|].
  rewrite seq_S, omap_app, seqZ_S, IH by (intros; apply H; lia).
  simpl. by rewrite H by lia.
Qed.

Lemma live_indices_mounted f items n st :
  dom_inv st →
  live_indices (mounted f items n st) = seqZ (f_from f) (Z.of_nat (length items)).
Proof.
  intros Hd. unfold live_indices. rewrite childNodes_mounted, omap_app.
  rewrite omap_none, app_nil_l.
  - apply omap_seq_rows. intros j Hj.
    destruct (lookup_lt_is_Some_2 items j) as [item Hitem]; [done|].
    unfold live_index. by rewrite (lookup_mounted_new f items n st j item).
  - intros r Hin. unfold live_index.
    pose proof Hd as ([rest Hc] & _ & Hch & (s & Hs & Ha & Hr)).
    destruct (decide (r = scroller st)) as [->|Hne].
    + rewrite lookup_mounted_scroller, Hs by done. simpl. by rewrite Ha, Hr.
    + rewrite lookup_mounted_old; [by destruct (heap st !! r)|done|].
      rewrite Hc in *. simpl. apply elem_of_cons in Hin as [?|?]; done.
Qed.







(** ** Runs and the callback's effect on the scheduler *)

Lemma reachable_run config (evs : list (Event Item)) st st' :
  reachable config false st → run evs st = Some st' → reachable config false st'.
Proof.
  revert st. induction evs as [|ev evs IH]; intros st Hr Hrun; simpl in Hrun.
  - by inversion Hrun; subst.
  - destruct (step ev st) as [st1|] eqn:E; [|done].
    apply (IH st1); [|done]. by eapply reach_step.
Qed.

Lemma reachable_relax config st : reachable config true st → reachable config false st.
Proof.
  induction 1 as [st H|st ev st' _ IH _ Hstep].
  - by apply reach_new.
  - by eapply reach_step.
Qed.

Lemma callback_sched f items n st :
  let st' := getNodes_callback f items n st in
  nextChunk st' = None ∧
  match nextChunk st with
  | Some from' =>
      loading st' = true ∧
      inflight st' = inflight st ++ [{| f_from := from'; f_count := cachedItemsLen st |}] ∧
      issued st' = issued st ++ [(from', cachedItemsLen st)] ∧
      requested st' = requested st ++ [from']
  | None =>
      loading st' = false ∧ inflight st' = inflight st ∧
      issued st' = issued st ∧ requested st' = requested st
  end.
Proof.
  simpl. rewrite getNodes_callback_eq.
  destruct (nextChunk st) as [from'|] eqn:E; [|done].
  destruct (renderChunk_flags from' (mounted f items n st)) as [-> ->].
  rewrite renderChunk_inflight, renderChunk_issued, renderChunk_requested.
  done.
Qed.

Lemma idle_nothing_outstanding st :
  sched_inv st → loading st = false → inflight st = [] ∧ nextChunk st = None.
Proof. unfold sched_inv. intros H Hl. by rewrite Hl in H. Qed.

(** ** The scroll check *)

Lemma scroll_within_buffer_no_request now scrollTop y st :
  lastRepaintY st = Some y → y ≠ 0 → Z.abs (scrollTop - y) ≤ maxBuffer st →
  onScroll_timeout now scrollTop st = set_lastScrolled now st.
Proof.
  intros Hy Hne Hd. unfold onScroll_timeout, repaint_due. rewrite Hy.
  destruct (Z.eqb_spec y 0) as [|_]; [done|].
  destruct (Z.gtb_spec (Z.abs (scrollTop - y)) (maxBuffer st)) as [|_]; [lia|done].
Qed.

Lemma window_start_max (scrollTop ih c : Z) :
  0 < ih → 0 ≤ scrollTop → scrollTop = 0 ∨ ih ≤ scrollTop * 1000000 →
  (let first := parseInt_div scrollTop ih - c in if first <? 0 then 0 else first) =
    Z.max 0 (scrollTop / ih - c).
Proof.
  intros Hih Hs Hq. simpl. rewrite parseInt_div_floor by done.
  destruct (Z.ltb_spec (scrollTop / ih - c) 0); lia.
Qed.

(** ** The spacer *)


(** ** The rows of the last answer *)





(** * The claims *)

(** C1.  At most one data-source fetch is in flight at any time.  In
    every state the list reaches, by whatever window requests, scroll
    checks, reaper ticks, row-count updates and answers of the data
    source to its outstanding calls, at most one [getNodes] call is
    outstanding and [loading] is set exactly while one is.  A window
    request made while [loading] is set issues no [getNodes] call, and
    a window request that does issue one found [loading] unset and no
    call outstanding. *)
Theorem at_most_one_fetch_in_flight config strict st :
  reachable config strict st →
  (length (inflight st) ≤ 1)%nat ∧
  (loading st = true ↔ inflight st ≠ []) ∧
  (∀ from, loading st = true →
     issued (_renderChunk from st) = issued st ∧
     inflight (_renderChunk from st) = inflight st) ∧
  (∀ from, issued (_renderChunk from st) ≠ issued st →
     loading st = false ∧ inflight st = []).
Proof.
  intros Hr. pose proof (reachable_sched_inv _ _ _ Hr) as Hs.
  unfold sched_inv in Hs. split_and!.
  - destruct (loading st); [destruct Hs as [f ->]|destruct Hs as [-> _]]; simpl; lia.
  - destruct (loading st); [destruct Hs as [f ->]|destruct Hs as [-> _]]; split; done.
  - intros from Hl. rewrite renderChunk_issued, renderChunk_inflight, Hl. done.
  - intros from Hne. rewrite renderChunk_issued in Hne.
    destruct (loading st); [done|]. by destruct Hs as [-> _].
Qed.

(** C2.  Three window requests made before the first fetch completes
    issue exactly two fetches.  From an idle list, the first request
    issues a fetch for its window and the next two only overwrite the
    pending slot; the answer to the first fetch then issues one fetch,
    for the window requested last, and the answer to that one issues
    none.  The window of the middle request is never fetched. *)
Theorem three_requests_two_fetches config strict st (a b c : Z)
    items1 (n1 : Z) items2 (n2 : Z) :
  reachable config strict st → loading st = false →
  ∃ st3 st4 st5,
    run [RenderChunk a; RenderChunk b; RenderChunk c] st = Some st3 ∧
    issued st3 = issued st ++ [(a, cachedItemsLen st)] ∧
    inflight st3 = [{| f_from := a; f_count := cachedItemsLen st |}] ∧
    nextChunk st3 = Some c ∧
    fetch_done 0 items1 n1 st3 = Some st4 ∧
    issued st4 = issued st ++ [(a, cachedItemsLen st); (c, cachedItemsLen st)] ∧
    inflight st4 = [{| f_from := c; f_count := cachedItemsLen st |}] ∧
    nextChunk st4 = None ∧
    fetch_done 0 items2 n2 st4 = Some st5 ∧
    issued st5 = issued st ++ [(a, cachedItemsLen st); (c, cachedItemsLen st)] ∧
    inflight st5 = [] ∧ loading st5 = false ∧ nextChunk st5 = None.
Proof.
  intros Hr Hl.
  destruct (idle_nothing_outstanding st (reachable_sched_inv _ _ _ Hr) Hl) as [Hi Hn].
  set (st1 := _renderChunk a st).
  set (st2 := _renderChunk b st1).
  set (st3 := _renderChunk c st2).
  destruct (renderChunk_flags a st) as [Hl1 _]. fold st1 in Hl1.
  destruct (renderChunk_flags b st1) as [Hl2 _]. fold st2 in Hl2.
  destruct (renderChunk_flags c st2) as [_ Hn3]. fold st3 in Hn3. rewrite Hl2 in Hn3.
  assert (cachedItemsLen st3 = cachedItemsLen st) as Hc3.
  { unfold cachedItemsLen, st3, st2, st1. by rewrite !renderChunk_fixed. }
  pose proof (renderChunk_issued a st) as Hi1. fold st1 in Hi1. rewrite Hl in Hi1.
  pose proof (renderChunk_issued b st1) as Hi2. fold st2 in Hi2. rewrite Hl1, Hi1 in Hi2.
  pose proof (renderChunk_issued c st2) as Hi3. fold st3 in Hi3. rewrite Hl2, Hi2 in Hi3.
  pose proof (renderChunk_inflight a st) as Hf1. fold st1 in Hf1. rewrite Hl, Hi in Hf1.
  pose proof (renderChunk_inflight b st1) as Hf2. fold st2 in Hf2. rewrite Hl1, Hf1 in Hf2.
  pose proof (renderChunk_inflight c st2) as Hf3. fold st3 in Hf3. rewrite Hl2, Hf2 in Hf3.
  simpl in Hf3.
  set (fa := {| f_from := a; f_count := cachedItemsLen st |}) in *.
  set (st4 := getNodes_callback fa items1 n1 (set_inflight [] st3)).
  pose proof (callback_sched fa items1 n1 (set_inflight [] st3)) as H4.
  simpl in H4. fold st4 in H4.
  change (nextChunk (set_inflight [] st3)) with (nextChunk st3) in H4.
  rewrite Hn3 in H4. destruct H4 as (Hn4 & Hl4 & Hf4 & Hi4 & _).
  change (issued (set_inflight [] st3)) with (issued st3) in Hi4.
  change (cachedItemsLen (set_inflight [] st3)) with (cachedItemsLen st3) in Hf4, Hi4.
  change (inflight (set_inflight [] st3)) with (@nil Fetch) in Hf4.
  rewrite Hc3 in Hf4, Hi4. rewrite Hi3, <- (assoc_L (++)) in Hi4. simpl in Hf4, Hi4.
  set (fc := {| f_from := c; f_count := cachedItemsLen st |}) in *.
  set (st5 := getNodes_callback fc items2 n2 (set_inflight [] st4)).
  pose proof (callback_sched fc items2 n2 (set_inflight [] st4)) as H5.
  simpl in H5. fold st5 in H5.
  change (nextChunk (set_inflight [] st4)) with (nextChunk st4) in H5.
  rewrite Hn4 in H5. destruct H5 as (Hn5 & Hl5 & Hf5 & Hi5 & _).
  change (issued (set_inflight [] st4)) with (issued st4) in Hi5.
  change (inflight (set_inflight [] st4)) with (@nil Fetch) in Hf5.
  exists st3, st4, st5. split_and!; try done.
  - unfold fetch_done. by rewrite Hf3.
  - unfold fetch_done. by rewrite Hf4.
  - by rewrite Hi5.
Qed.






(** C10.  A window is pending only while a fetch is in flight.  In every
    state the list reaches, a pending window implies [loading]; with
    [loading] unset nothing is pending and nothing is outstanding; a
    request that starts a fetch leaves the pending slot empty; and the
    answer to a fetch leaves it empty as well, with [loading] set again
    exactly when a window was pending. *)
Theorem pending_only_while_loading config strict st :
  reachable config strict st →
  (nextChunk st ≠ None → loading st = true) ∧
  (loading st = false → nextChunk st = None ∧ inflight st = []) ∧
  (∀ from, loading st = false →
     loading (_renderChunk from st) = true ∧
     nextChunk (_renderChunk from st) = None ∧
     inflight (_renderChunk from st) =
       [{| f_from := from; f_count := cachedItemsLen st |}]) ∧
  (∀ k items n st', fetch_done k items n st = Some st' →
     nextChunk st' = None ∧ (loading st' = true ↔ nextChunk st ≠ None)).
Proof.
  intros Hr. pose proof (reachable_sched_inv _ _ _ Hr) as Hs. split_and!.
  - intros Hn. destruct (loading st) eqn:Hl; [done|].
    by destruct (idle_nothing_outstanding st Hs Hl).
  - intros Hl. by destruct (idle_nothing_outstanding st Hs Hl).
  - intros from Hl. destruct (idle_nothing_outstanding st Hs Hl) as [Hi _].
    destruct (renderChunk_flags from st) as [-> ->].
    rewrite renderChunk_inflight, Hl, Hi. done.
  - intros k items n st' Hdone.
    destruct (fetch_done_inv _ _ _ _ _ Hs Hdone) as (f & _ & _ & _ & ->).
    pose proof (callback_sched f items n (set_inflight [] st)) as H.
    simpl in H. change (nextChunk (set_inflight [] st)) with (nextChunk st) in H.
    destruct H as [Hn H]. split; [done|].
    destruct (nextChunk st); [destruct H as [-> _]|destruct H as [-> _]]; split; done.
Qed.


End Proofs.

(** * The concrete list *)

Lemma demo_new_built : VirtualList demo_config = Some demo_new.
Proof. vm_compute. reflexivity. Qed.

Lemma demo_new_reachable strict : reachable demo_config strict demo_new.
Proof. apply reach_new, demo_new_built. Qed.

Lemma demo_shown_step :
  step (FetchDone 0 [5; 6; 7]%nat 1000) demo_new = Some demo_shown.
Proof. vm_compute. reflexivity. Qed.

Lemma demo_shown_reachable strict : reachable demo_config strict demo_shown.
Proof.
  eapply reach_step; [apply demo_new_reachable| |apply demo_shown_step].
  intros _ f Hf. vm_compute in Hf. inversion Hf; subst. simpl. lia.
Qed.

Lemma demo_at_top_run :
  run [ScrollCheck 1000 0; FetchDone 0 [5; 6; 7]%nat 1000] demo_shown = Some demo_at_top.
Proof. vm_compute. reflexivity. Qed.

Lemma demo_at_top_reachable : reachable demo_config false demo_at_top.
Proof.
  eapply reachable_run; [apply (demo_shown_reachable false)|apply demo_at_top_run].
Qed.

(** C7 (the code departs from the claim).  After a repaint accepted at
    scroll offset 0, the test [!lastRepaintY] holds again, so the next
    scroll check repaints whatever the distance: a check at offset 10,
    well within the 200 pixels of [maxBuffer], requests the window at 0
    once more and, no fetch being outstanding, issues
    [getNodes(0, 30, cb)]. *)
Theorem scroll_within_buffer_after_top_refetches :
  VirtualList demo_config = Some demo_new ∧
  run [FetchDone 0 [5; 6; 7]%nat 1000; ScrollCheck 1000 0;
       FetchDone 0 [5; 6; 7]%nat 1000] demo_new = Some demo_at_top ∧
  lastRepaintY demo_at_top = Some 0 ∧
  maxBuffer demo_at_top = 200 ∧
  Z.abs (10 - 0) ≤ maxBuffer demo_at_top ∧
  loading demo_at_top = false ∧
  requested (onScroll_timeout 2000 10 demo_at_top) = requested demo_at_top ++ [0] ∧
  issued (onScroll_timeout 2000 10 demo_at_top) = issued demo_at_top ++ [(0, 30)].
Proof.
  split_and!; try (vm_compute; reflexivity).
  vm_compute. discriminate.
Qed.

(** C9 (the code departs from the claim).  With [w] left out of the
    configuration the container's width is the text "undefinedpx", and
    so is the height with [h] left out: [config.w + 'px'] is never an
    empty string, so the default ['100%'] is not taken for any
    configuration object. *)
Theorem omitted_dimension_is_not_full_size :
  VirtualList demo_config = Some demo_new ∧
  cfg_w demo_config = None ∧
  fx_container_width (fixed demo_new) = "undefinedpx" ∧
  cfg_h demo_config_no_h = None ∧
  dimension (Some demo_config_no_h) cfg_h = "undefinedpx" ∧
  ∀ config : Config nat nat,
    dimension (Some config) cfg_w ≠ "100%" ∧ dimension (Some config) cfg_h ≠ "100%".
Proof.
  split_and!; try (vm_compute; reflexivity).
  intros config. split; apply dimension_never_full.
Qed.

(** The scenario of the specification: the first fetch of the concrete
    list, answered with 30 items and a total of 1000 rows, mounts rows
    0 to 29 at tops 0, 20, ..., 580 and makes the scroller 20000 pixels
    high. *)
Example first_answer_scenario :
  let st := getNodes_callback demo_fetch (seq 0 30) 1000 (set_inflight [] demo_new) in
  step (FetchDone 0 (seq 0 30) 1000) demo_new = Some st ∧
  live_indices st = seqZ 0 30 ∧
  omap (λ r, style_top <$> heap st !! r) (drop 1 (childNodes st)) =
    (λ i, px (20 * i)) <$> seqZ 0 30 ∧
  (style_height <$> heap st !! scroller st) = Some "20000px".
Proof. vm_compute. repeat split; reflexivity. Qed.

(** ** Where the claims as first stated fail *)






(** ** The theorems at the concrete list *)

Lemma at_most_one_fetch_in_flight_witness :
  reachable demo_config false demo_new ∧ (length (inflight demo_new) ≤ 1)%nat.
Proof.
  split; [apply demo_new_reachable|].
  destruct (at_most_one_fetch_in_flight demo_config false demo_new) as (Hone & _).
  - apply demo_new_reachable.
  - exact Hone.
Defined.

Lemma three_requests_two_fetches_witness :
  reachable demo_config false demo_shown ∧ loading demo_shown = false ∧
  ∃ st3 st4 st5,
    run [RenderChunk 40; RenderChunk 80; RenderChunk 120] demo_shown = Some st3 ∧
    fetch_done 0 [1; 2]%nat 1000 st3 = Some st4 ∧
    fetch_done 0 [3; 4]%nat 1000 st4 = Some st5 ∧
    issued st5 = issued demo_shown ++ [(40, 30); (120, 30)] ∧
    inflight st5 = [].
Proof.
  split; [apply demo_shown_reachable|]. split; [vm_compute; reflexivity|].
  destruct (three_requests_two_fetches demo_config false demo_shown 40 80 120
              [1; 2]%nat 1000 [3; 4]%nat 1000)
    as (st3 & st4 & st5 & H3 & _ & _ & _ & H4 & _ & _ & _ & H5 & Hi & Hf & _).
  - apply demo_shown_reachable.
  - vm_compute. reflexivity.
  - exists st3, st4, st5. split_and!; assumption.
Defined.






Lemma pending_only_while_loading_witness :
  reachable demo_config false demo_shown ∧
  loading demo_shown = false ∧
  nextChunk demo_shown = None ∧ inflight demo_shown = [].
Proof.
  split; [apply demo_shown_reachable|].
  split; [vm_compute; reflexivity|].
  destruct (pending_only_while_loading demo_config false demo_shown)
    as (_ & Hidle & _).
  - apply demo_shown_reachable.
  - apply Hidle. vm_compute. reflexivity.
Defined.

(** * Further properties of the list *)

Section Extras.

Context {Item Content : Type}.
Implicit Types (st : State Item Content) (config : Config Item Content).
Implicit Types (hp : gmap nat (Node Content)) (items : list Item).

(** ** The store after an answer, element by element *)

Lemma lookup_add_rows_cases st items from i (r k : nat) hp e :
  add_rows st items from i r hp !! k = Some e →
  hp !! k = Some e ∨
  ∃ (j : nat) item, k = (r + j)%nat ∧ items !! j = Some item ∧
    e = createRow st item (from + (i + Z.of_nat j)).
Proof.
  revert i r hp. induction items as [|x rest IH]; intros i r hp H; simpl in H.
  - by left.
  - apply IH in H as [H|(j & item & -> & Hj & ->)].
    + destruct (decide (r = k)) as [->|Hne].
      * rewrite lookup_insert_eq in H. inversion H; subst. right.
        exists 0%nat, x. split_and!; [lia|done|]. do 2 f_equal. lia.
      * rewrite lookup_insert_ne in H by done. by left.
    + right. exists (S j), item. split_and!; [lia|done|]. do 2 f_equal. lia.
Qed.

Lemma mounted_heap_ind f items n st (P : nat → Node Content → Prop) :
  (∀ r e, heap st !! r = Some e → r ≠ scroller st → P r e) →
  (∀ e, heap st !! scroller st = Some e →
     P (scroller st) (set_style_height (times_px (itemHeight st) n) e)) →
  (∀ (j : nat) item, items !! j = Some item →
     P (next_ref st + j)%nat (createRow st item (f_from f + Z.of_nat j))) →
  (∀ r e, P r e → P r (mark_obsolete e)) →
  ∀ r e, heap (mounted f items n st) !! r = Some e → P r e.
Proof.
  intros Hold Hscr Hnew Hmark r e. rewrite heap_mounted, lookup_mark_children.
  assert (∀ e0, add_rows st items (f_from f) 0 (next_ref st)
            (alter (set_style_height (times_px (itemHeight st) n)) (scroller st) (heap st))
              !! r = Some e0 → P r e0) as Hbase.
  { intros e0 [H|(j & item & -> & Hj & ->)]%lookup_add_rows_cases.
    - destruct (decide (scroller st = r)) as [<-|Hne].
      + rewrite lookup_alter_eq in H.
        destruct (heap st !! scroller st) as [e1|] eqn:E; [|done].
        inversion H; subst. by apply Hscr.
      + rewrite lookup_alter_ne in H by done. by apply Hold.
    - by apply Hnew. }
  destruct (decide (r ∈ drop 1 (childNodes st))); [|by apply Hbase].
  destruct (add_rows _ _ _ _ _ _ !! r) as [e1|]; [|done].
  intros H. inversion H; subst. by apply Hmark, Hbase.
Qed.

(** ** The store invariant *)

Lemma store_inv_ext st st' :
  fixed st' = fixed st → heap st' = heap st → next_ref st' = next_ref st →
  store_inv st → store_inv st'.
Proof.
  unfold store_inv, row_shaped, scroller, itemHeight. by intros -> -> ->.
Qed.

Lemma store_inv_renderChunk from st : store_inv st → store_inv (_renderChunk from st).
Proof.
  destruct (renderChunk_dom from st) as (_ & H2 & H3 & _).
  apply store_inv_ext; try done. apply renderChunk_fixed.
Qed.

Lemma store_inv_updateTotalRows n st : store_inv st → store_inv (updateTotalRows n st).
Proof.
  intros Hs r e.
  change (heap (updateTotalRows n st))
    with (alter (set_style_height (times_px (itemHeight st) n)) (scroller st) (heap st)).
  destruct (decide (scroller st = r)) as [<-|Hne].
  - rewrite lookup_alter_eq. destruct (heap st !! scroller st) as [e1|] eqn:E; [|done].
    intros H. inversion H; subst. destruct (Hs _ _ E) as (H1 & H2 & _).
    split_and!; [done|done|]. by intros [].
  - rewrite lookup_alter_ne by done. apply Hs.
Qed.

Lemma store_inv_mounted f items n st : store_inv st → store_inv (mounted f items n st).
Proof.
  intros Hs r e He.
  change ((r < length items + next_ref st)%nat ∧
          (attr_data_rm e = Some "1" → style_display e = "none") ∧
          (r ≠ scroller st → row_shaped st e)).
  revert r e He.
  apply (mounted_heap_ind f items n st (λ r e,
    (r < length items + next_ref st)%nat ∧
    (attr_data_rm e = Some "1" → style_display e = "none") ∧
    (r ≠ scroller st → row_shaped st e))).
  - intros r e He Hne. destruct (Hs _ _ He) as (H1 & H2 & H3).
    split_and!; [lia|done|done].
  - intros e He. destruct (Hs _ _ He) as (H1 & H2 & _).
    split_and!; [lia|done|]. by intros [].
  - intros j item Hj. apply lookup_lt_Some in Hj.
    split_and!; [lia|done|]. intros _. by exists (f_from f + Z.of_nat j).
  - intros r e (H1 & H2 & H3). split_and!; [done|done|].
    intros Hne. destruct (H3 Hne) as (i & ?). by exists i.
Qed.

Lemma store_inv_step ev st st' : store_inv st → step ev st = Some st' → store_inv st'.
Proof.
  intros H Hstep. destruct ev as [from|k items n|now y|now document|n]; simpl in Hstep.
  - inversion Hstep. by apply store_inv_renderChunk.
  - unfold fetch_done in Hstep. destruct (inflight st !! k) as [f|]; [|done].
    inversion Hstep. rewrite getNodes_callback_eq.
    destruct (nextChunk _); [apply store_inv_renderChunk|];
      by apply (store_inv_mounted f items n (set_inflight _ st)).
  - inversion Hstep. unfold onScroll_timeout.
    destruct (repaint_due y st); [|done].
    match goal with
    | |- context [_renderChunk ?from st] => exact (store_inv_renderChunk from st H)
    end.
  - inversion Hstep. unfold rmNodeInterval_tick.
    destruct (now - lastScrolled st >? 100); [|done].
    by destruct (removeChildren _ _).
  - inversion Hstep. by apply store_inv_updateTotalRows.
Qed.

Lemma store_inv_new config st : VirtualList config = Some st → store_inv st.
Proof.
  intros H. destruct (VirtualList_inv _ _ H) as (h & _ & _ & Hst).
  destruct Hst as (Hfx & _ & _ & _ & _ & Hh & Hn & _).
  intros r e. unfold scroller. rewrite Hfx, Hh, Hn. simpl.
  intros [-> <-]%lookup_singleton_Some. split_and!; [lia|done|done].
Qed.

Lemma reachable_store_inv config strict st : reachable config strict st → store_inv st.
Proof.
  induction 1 as [st H|st ev st' _ IH _ Hstep].
  - by eapply store_inv_new.
  - by eapply store_inv_step.
Qed.

(** ** The spacer invariant *)








(** ** Requests and fetches *)

Lemma request_inv_ext st st' :
  requested st' = requested st → issued st' = issued st →
  nextChunk st' = nextChunk st → request_inv st → request_inv st'.
Proof. unfold request_inv. by intros -> -> ->. Qed.

Lemma request_inv_renderChunk from st :
  (∀ p, p ∈ issued st → p.1 ∈ requested st) → request_inv (_renderChunk from st).
Proof.
  intros Hsub. unfold request_inv.
  destruct (renderChunk_flags from st) as [_ ->].
  rewrite renderChunk_requested, renderChunk_issued, last_snoc.
  destruct (loading st).
  - split; [done|]. intros p Hp. apply elem_of_app. left. by apply Hsub.
  - rewrite last_snoc. split; [done|].
    intros p [Hp|Hp%list_elem_of_singleton]%elem_of_app; apply elem_of_app.
    + left. by apply Hsub.
    + right. subst p. simpl. by apply list_elem_of_singleton.
Qed.

Lemma request_inv_step ev st st' : request_inv st → step ev st = Some st' → request_inv st'.
Proof.
  intros H Hstep. pose proof H as [_ Hsub].
  destruct ev as [from|k items n|now y|now document|n]; simpl in Hstep.
  - inversion Hstep. by apply request_inv_renderChunk.
  - unfold fetch_done in Hstep. destruct (inflight st !! k) as [f|]; [|done].
    inversion Hstep. rewrite getNodes_callback_eq.
    set (st0 := set_inflight (delete k (inflight st)) st).
    assert (request_inv st0) as H0 by exact H.
    assert (∀ p, p ∈ issued (mounted f items n st0) → p.1 ∈ requested (mounted f items n st0))
      as Hsub0 by exact Hsub.
    destruct (nextChunk st0) as [from'|] eqn:E.
    + by apply request_inv_renderChunk.
    + apply request_inv_ext with st0; [reflexivity..|exact H0].
  - inversion Hstep. unfold onScroll_timeout.
    destruct (repaint_due y st); [|done].
    match goal with
    | |- request_inv (set_lastScrolled _ (set_lastRepaintY _ (_renderChunk ?from st))) =>
        apply (request_inv_ext (_renderChunk from st));
          [reflexivity..|by apply request_inv_renderChunk]
    end.
  - inversion Hstep. unfold rmNodeInterval_tick.
    destruct (now - lastScrolled st >? 100); [|done].
    by destruct (removeChildren _ _).
  - inversion Hstep. done.
Qed.

Lemma reachable_request_inv config strict st : reachable config strict st → request_inv st.
Proof.
  induction 1 as [st H|st ev st' _ IH _ Hstep].
  - destruct (VirtualList_inv _ _ H) as (h & _ & _ & Hst).
    destruct Hst as (_ & _ & Hn & _ & _ & _ & _ & _ & _ & _ & Hq & Hi & _).
    unfold request_inv. rewrite Hn, Hq, Hi. split; [done|].
    intros p Hp%list_elem_of_singleton. subst p. simpl.
    by apply list_elem_of_singleton.
  - by eapply request_inv_step.
Qed.




(** ** More on removing children *)

Lemma removeChild_None (r : nat) (c : list nat) : r ∉ c → removeChild r c = None.
Proof.
  induction c as [|x c IH]; intros Hr; simpl; [done|].
  apply not_elem_of_cons in Hr as [Hne Hr].
  rewrite decide_False by done. by rewrite IH.
Qed.

Lemma removeChild_keeps (r x : nat) (c c' : list nat) :
  removeChild r c = Some c' → x ∈ c → x ≠ r → x ∈ c'.
Proof.
  revert c'. induction c as [|y c IH]; intros c' H Hx Hne; simpl in H; [done|].
  destruct (decide (r = y)) as [->|Hry].
  - inversion H; subst. apply elem_of_cons in Hx as [->|Hx]; done.
  - destruct (removeChild r c) as [c0|]; [|done]. inversion H; subst.
    apply elem_of_cons in Hx as [->|Hx]; [left|right]. by apply IH.
Qed.

Lemma removeChildren_keeps (bad c : list nat) (x : nat) :
  x ∈ c → x ∉ bad → x ∈ (removeChildren bad c).1.
Proof.
  revert c. induction bad as [|r bad IH]; intros c Hx Hbad; simpl; [done|].
  apply not_elem_of_cons in Hbad as [Hne Hbad].
  destruct (removeChild r c) as [c0|] eqn:E; [|done].
  apply IH; [|done]. by eapply removeChild_keeps.
Qed.

Lemma removeChildren_foreign (good rest c : list nat) (r : nat) :
  r ∉ c → removeChildren (good ++ r :: rest) c = ((removeChildren good c).1, false).
Proof.
  revert c. induction good as [|g good IH]; intros c Hr; simpl.
  - by rewrite removeChild_None.
  - destruct (removeChild g c) as [c0|] eqn:E; [|done].
    apply IH. intros Hin. apply Hr.
    eapply elem_of_sublist; [done|]. by eapply removeChild_sublist.
Qed.

Lemma set_childNodes_id st : set_childNodes (childNodes st) st = st.
Proof. by destruct st. Qed.

Lemma tick_quiet_exact now (document : list nat) st :
  dom_inv st → now - lastScrolled st > 100 →
  querySelectorAll_rm (heap st) document = querySelectorAll_rm (heap st) (childNodes st) →
  rmNodeInterval_tick now document st =
    (set_childNodes (filter (λ r, matches_rm (heap st) r = false) (childNodes st)) st, true).
Proof.
  intros (_ & Hnd & _) Hquiet Hdoc. unfold rmNodeInterval_tick.
  destruct (Z.gtb_spec (now - lastScrolled st) 100) as [_|]; [|lia].
  rewrite Hdoc. unfold querySelectorAll_rm.
  pose proof (removeChildren_filter (matches_rm (heap st)) [] (childNodes st) Hnd) as H.
  rewrite !app_nil_l in H. by rewrite H.
Qed.

Lemma filter_matched_of_unmatched hp (c : list nat) :
  filter (λ r, matches_rm hp r = true) (filter (λ r, matches_rm hp r = false) c) = [].
Proof.
  induction c as [|x c IH]; [done|].
  rewrite filter_cons. destruct (matches_rm hp x) eqn:E.
  - by rewrite decide_False.
  - rewrite decide_True by done. rewrite filter_cons, decide_False; [done|].
    by rewrite E.
Qed.

Lemma renderChunk_totalRows from st : totalRows (_renderChunk from st) = totalRows st.
Proof.
  destruct (loading st) eqn:E;
    [rewrite renderChunk_loading | rewrite renderChunk_idle]; done.
Qed.

Lemma lookup_mounted_below f items n st (r : nat) :
  (r < next_ref st)%nat →
  heap (mounted f items n st) !! r =
    (if decide (r ∈ drop 1 (childNodes st)) then mark_obsolete else id) <$>
      (alter (set_style_height (times_px (itemHeight st) n)) (scroller st) (heap st) !! r).
Proof.
  intros Hlt. rewrite heap_mounted, lookup_mark_children, lookup_add_rows_lt by done.
  case_decide; [done|]. by rewrite option_fmap_id.
Qed.

Lemma matches_rm_mounted f items n st (r : nat) :
  store_inv st → matches_rm (heap st) r = true →
  matches_rm (heap (mounted f items n st)) r = true.
Proof.
  intros Hs Hm. unfold matches_rm in *.
  destruct (heap st !! r) as [e|] eqn:E; [|done].
  destruct (Hs _ _ E) as (Hlt & _). rewrite lookup_mounted_below by done.
  apply bool_decide_eq_true in Hm.
  destruct (decide (scroller st = r)) as [<-|Hne].
  - rewrite lookup_alter_eq, E. simpl.
    case_decide; simpl; first [done | by apply bool_decide_eq_true].
  - rewrite lookup_alter_ne, E by done. simpl.
    case_decide; simpl; first [done | by apply bool_decide_eq_true].
Qed.

Lemma matches_rm_live_index hp (r : nat) :
  matches_rm hp r = true → live_index hp r = None.
Proof.
  unfold matches_rm, live_index. destruct (hp !! r); [|done]. by intros ->.
Qed.


(** ** Properties *)


(** X2.  Of two [updateTotalRows] calls in a row the last one wins, and
    a call touches nothing but the row count and the scroller: the
    children, every other element, the rows on display and the
    scheduler are as before. *)
Theorem updateTotalRows_last_wins (m n : Z) st :
  updateTotalRows m (updateTotalRows n st) = updateTotalRows m st ∧
  childNodes (updateTotalRows n st) = childNodes st ∧
  (∀ r, r ≠ scroller st → heap (updateTotalRows n st) !! r = heap st !! r) ∧
  live_indices (updateTotalRows n st) = live_indices st ∧
  loading (updateTotalRows n st) = loading st ∧
  nextChunk (updateTotalRows n st) = nextChunk st ∧
  inflight (updateTotalRows n st) = inflight st ∧
  issued (updateTotalRows n st) = issued st.
Proof.
  split_and!; try done.
  - destruct st as [fx ? ? ? ? ? ? hp ? ? ? ? ?].
    unfold updateTotalRows, set_heap, set_totalRows, scroller, itemHeight. simpl.
    f_equal. apply map_eq. intros j.
    destruct (decide (fx_scroller fx = j)) as [<-|Hne].
    + rewrite !lookup_alter_eq. by destruct (hp !! fx_scroller fx).
    + by rewrite !lookup_alter_ne.
  - intros r Hne.
    change (heap (updateTotalRows n st))
      with (alter (set_style_height (times_px (itemHeight st) n)) (scroller st) (heap st)).
    by rewrite lookup_alter_ne.
  - apply live_indices_updateTotalRows.
Qed.


(** X4.  A row once flagged stays flagged: no event takes [data-rm="1"]
    off an element again, so an obsolete row is never counted among the
    rows on display, whatever happens before the reaper removes it. *)
Theorem obsolete_rows_stay_obsolete config strict st (ev : Event Item) st' (r : nat) :
  reachable config strict st →
  step ev st = Some st' →
  matches_rm (heap st) r = true →
  matches_rm (heap st') r = true ∧ live_index (heap st') r = None.
Proof.
  intros Hr Hstep Hm. pose proof (reachable_store_inv _ _ _ Hr) as Hs.
  assert (matches_rm (heap st') r = true) as Hm'.
  { destruct ev as [from|k items n|now y|now document|n]; simpl in Hstep.
    - inversion Hstep. by destruct (renderChunk_dom from st) as (_ & -> & _).
    - unfold fetch_done in Hstep. destruct (inflight st !! k) as [f|]; [|done].
      inversion Hstep. rewrite getNodes_callback_eq.
      set (st0 := set_inflight (delete k (inflight st)) st).
      assert (matches_rm (heap (mounted f items n st0)) r = true) as Hmounted
        by by apply matches_rm_mounted.
      destruct (nextChunk st0) as [from'|]; [|done].
      by destruct (renderChunk_dom from' (mounted f items n st0)) as (_ & -> & _).
    - inversion Hstep. unfold onScroll_timeout.
      destruct (repaint_due y st); [|done].
      match goal with
      | |- matches_rm (heap (set_lastScrolled _ (set_lastRepaintY _ (_renderChunk ?from st)))) _ = _ =>
          change (matches_rm (heap (_renderChunk from st)) r = true);
          by destruct (renderChunk_dom from st) as (_ & -> & _)
      end.
    - inversion Hstep. unfold rmNodeInterval_tick.
      destruct (now - lastScrolled st >? 100); [|done].
      by destruct (removeChildren _ _).
    - inversion Hstep. unfold matches_rm in *.
      change (heap (updateTotalRows n st))
        with (alter (set_style_height (times_px (itemHeight st) n)) (scroller st) (heap st)).
      destruct (decide (scroller st = r)) as [<-|Hne].
      + rewrite lookup_alter_eq. by destruct (heap st !! scroller st).
      + by rewrite lookup_alter_ne. }
  split; [done|]. by apply matches_rm_live_index.
Qed.

(** X5.  Which events change the container's children: an answer of the
    data source appends one new child per item and keeps every old child
    in place; a reaper tick only takes children away and modifies no
    element; a window request and a scroll check change neither the
    children nor any element; [updateTotalRows] leaves the children as
    they are. *)
Theorem children_change_discipline (ev : Event Item) st st' :
  step ev st = Some st' →
  match ev with
  | FetchDone _ items _ =>
      childNodes st' = childNodes st ++ seq (next_ref st) (length items)
  | ReaperTick _ _ =>
      childNodes st' `sublist_of` childNodes st ∧ heap st' = heap st
  | UpdateTotalRows _ => childNodes st' = childNodes st
  | RenderChunk _ | ScrollCheck _ _ =>
      childNodes st' = childNodes st ∧ heap st' = heap st
  end.
Proof.
  intros Hstep. destruct ev as [from|k items n|now y|now document|n]; simpl in Hstep.
  - inversion Hstep. by destruct (renderChunk_dom from st) as (-> & -> & _).
  - unfold fetch_done in Hstep. destruct (inflight st !! k) as [f|]; [|done].
    inversion Hstep. rewrite getNodes_callback_eq.
    set (st0 := set_inflight (delete k (inflight st)) st).
    destruct (nextChunk st0) as [from'|]; [|done].
    by destruct (renderChunk_dom from' (mounted f items n st0)) as (-> & _).
  - inversion Hstep. unfold onScroll_timeout.
    destruct (repaint_due y st); [|done].
    match goal with
    | |- childNodes (set_lastScrolled _ (set_lastRepaintY _ (_renderChunk ?from st))) = _ ∧ _ =>
        change (childNodes (_renderChunk from st) = childNodes st ∧
                heap (_renderChunk from st) = heap st);
        by destruct (renderChunk_dom from st) as (-> & -> & _)
    end.
  - inversion Hstep. unfold rmNodeInterval_tick.
    destruct (now - lastScrolled st >? 100); [|done].
    pose proof (removeChildren_sublist
      (querySelectorAll_rm (heap st) document) (childNodes st)) as Hsub.
    by destruct (removeChildren _ _).
  - inversion Hstep. done.
Qed.

(** X6.  An answer without items mounts nothing and still flags every
    row: the children are the same, each of them after child 0 carries
    [data-rm="1"], no row is on display, and the row count is the one
    the answer brought. *)
Theorem empty_answer_blanks_display config strict st (k : nat) (n : Z) st' :
  reachable config strict st →
  fetch_done k [] n st = Some st' →
  childNodes st' = childNodes st ∧
  live_indices st' = [] ∧
  totalRows st' = n ∧
  ∀ r, r ∈ drop 1 (childNodes st') → matches_rm (heap st') r = true.
Proof.
  intros Hr Hdone. pose proof (reachable_dom_inv _ _ _ Hr) as Hd.
  unfold fetch_done in Hdone. destruct (inflight st !! k) as [f|]; [|done].
  inversion Hdone as [Hst']. clear Hdone.
  set (st0 := set_inflight (delete k (inflight st)) st) in *.
  assert (dom_inv st0) as Hd0 by done.
  assert (childNodes (getNodes_callback f [] n st0) = childNodes (mounted f [] n st0) ∧
          heap (getNodes_callback f [] n st0) = heap (mounted f [] n st0) ∧
          totalRows (getNodes_callback f [] n st0) = n ∧
          live_indices (getNodes_callback f [] n st0) = live_indices (mounted f [] n st0))
    as (-> & -> & -> & ->).
  { rewrite getNodes_callback_eq. destruct (nextChunk st0) as [from'|]; [|done].
    rewrite live_indices_renderChunk, renderChunk_totalRows.
    by destruct (renderChunk_dom from' (mounted f [] n st0)) as (-> & -> & _). }
  rewrite childNodes_mounted, app_nil_r. split_and!; [done| |done|].
  - by rewrite live_indices_mounted.
  - intros r Hin. unfold matches_rm. rewrite (lookup_mounted_old f [] n st0 r Hd0 Hin).
    destruct Hd0 as (_ & _ & Hch & _).
    destruct (Hch r) as [_ [e He]]; [by apply (subseteq_drop 1)|].
    by rewrite He.
Qed.

(** X7.  When the document holds an element with [data-rm="1"] that is
    not a child of this container, the reaper's [removeChild] raises on
    it and the tick ends there: every child of the container that was
    not removed before that element is still mounted, flagged or not. *)
Theorem reaper_stops_at_foreign_element (now : Z) (document good rest : list nat)
    (r : nat) st :
  now - lastScrolled st > 100 →
  querySelectorAll_rm (heap st) document = good ++ r :: rest →
  r ∉ childNodes st →
  ∃ st', rmNodeInterval_tick now document st = (st', false) ∧
         heap st' = heap st ∧
         ∀ x, x ∈ childNodes st → x ∉ good → x ∈ childNodes st'.
Proof.
  intros Hquiet Hq Hr. unfold rmNodeInterval_tick.
  destruct (Z.gtb_spec (now - lastScrolled st) 100) as [_|]; [|lia].
  rewrite Hq, removeChildren_foreign by done.
  eexists. split_and!; [done..|].
  intros x Hx Hgood. by apply removeChildren_keeps.
Qed.

(** X8.  A second reaper tick finds nothing to do: after a tick that
    removed the obsolete children, a further tick, at any time, in a
    document whose flagged elements are again those of this container,
    leaves the state as it is. *)
Theorem second_reaper_tick_changes_nothing config strict st (now now' : Z)
    (document document' : list nat) :
  reachable config strict st →
  now - lastScrolled st > 100 →
  querySelectorAll_rm (heap st) document = querySelectorAll_rm (heap st) (childNodes st) →
  let st1 := (rmNodeInterval_tick now document st).1 in
  querySelectorAll_rm (heap st1) document' =
    querySelectorAll_rm (heap st1) (childNodes st1) →
  rmNodeInterval_tick now' document' st1 = (st1, true).
Proof.
  intros Hr Hquiet Hdoc st1 Hdoc'. pose proof (reachable_dom_inv _ _ _ Hr) as Hd.
  set (c := filter (λ r, matches_rm (heap st) r = false) (childNodes st)).
  assert (st1 = set_childNodes c st) as Hst1.
  { unfold st1. by rewrite (tick_quiet_exact now document st Hd Hquiet Hdoc). }
  clearbody st1. subst st1.
  change (heap (set_childNodes c st)) with (heap st) in Hdoc'.
  change (childNodes (set_childNodes c st)) with c in Hdoc'.
  unfold rmNodeInterval_tick.
  destruct (now' - lastScrolled _ >? 100); [|done].
  change (heap (set_childNodes c st)) with (heap st).
  change (childNodes (set_childNodes c st)) with c.
  rewrite Hdoc'. unfold c, querySelectorAll_rm.
  rewrite filter_matched_of_unmatched. simpl. by destruct st.
Qed.

(** X9.  The window a scroll check requests covers the viewport: with a
    positive row height and viewport height, and a scroll offset that
    is 0 or at least a millionth of the row height, both below
    [2 ^ 48], every row that intersects the viewport at the scroll
    offset of the check lies in the requested range of
    [cachedItemsLen] rows. *)
Theorem repaint_window_covers_viewport config strict st (h now scrollTop i : Z) :
  reachable config strict st →
  cfg_h config = Some h → 0 < cfg_itemHeight config < 2 ^ 48 → 0 < h →
  0 ≤ scrollTop < 2 ^ 48 →
  scrollTop = 0 ∨ cfg_itemHeight config ≤ scrollTop * 1000000 →
  repaint_due scrollTop st = true →
  i * cfg_itemHeight config < scrollTop + h →
  scrollTop < (i + 1) * cfg_itemHeight config →
  ∃ from, requested (onScroll_timeout now scrollTop st) = requested st ++ [from] ∧
          from ≤ i < from + cachedItemsLen st.
Proof.
  intros Hr Hh [Hpos _] Hhpos [Hs _] Hq Hdue Hlo Hhi.
  destruct (reachable_fixed_inv _ _ _ Hr) as (h' & Hh' & Hne & Hih & Hsc & Hc & _).
  assert (h' = h) as -> by congruence.
  pose proof (Math_ceil_div_is_ceil h _ Hne) as Hceil. unfold is_ceil in Hceil.
  destruct (Z.ltb_spec 0 (cfg_itemHeight config)) as [_|]; [|lia].
  set (ih := cfg_itemHeight config) in *. set (c := Math_ceil_div h ih) in *.
  exists (Z.max 0 (scrollTop / ih - c)). split.
  - unfold onScroll_timeout. rewrite Hdue, Hih, Hsc.
    change (requested (set_lastScrolled now (set_lastRepaintY (Some scrollTop) ?s)))
      with (requested s).
    rewrite renderChunk_requested. do 2 f_equal.
    apply (window_start_max scrollTop ih c Hpos Hs Hq).
  - rewrite Hc.
    pose proof (Z.div_mod scrollTop ih Hne) as Hdm.
    pose proof (Z.mod_pos_bound scrollTop ih Hpos) as Hm.
    assert (1 ≤ c) by nia.
    assert (0 ≤ scrollTop / ih) by (apply Z.div_pos; lia).
    assert (scrollTop / ih ≤ i) by nia.
    assert (i ≤ scrollTop / ih + c) by nia.
    lia.
Qed.

(** X10.  No request is lost and no fetch is spurious: in every state
    the list reaches, the window requested last is either the pending
    one or the one fetched last; once nothing is loading, the last
    [getNodes] call was for the window requested last; and every window
    ever fetched had been requested. *)
Theorem last_request_pending_or_fetched config strict st :
  reachable config strict st →
  last (requested st) =
    match nextChunk st with
    | Some from => Some from
    | None => fst <$> last (issued st)
    end ∧
  (loading st = false →
     ∃ from, last (requested st) = Some from ∧
             last (issued st) = Some (from, cachedItemsLen st)) ∧
  (∀ from count, (from, count) ∈ issued st → from ∈ requested st).
Proof.
  intros Hr. destruct (reachable_request_inv _ _ _ Hr) as [Hlast Hsub].
  split_and!; [done| |].
  - intros Hl.
    destruct (idle_nothing_outstanding st (reachable_sched_inv _ _ _ Hr) Hl) as [_ Hn].
    rewrite Hn in Hlast.
    destruct (reachable_fixed_inv _ _ _ Hr) as (h & _ & _ & _ & _ & _ & _ & Hall).
    destruct (last (issued st)) as [[from count]|] eqn:E.
    + exists from. split; [done|]. f_equal.
      apply last_Some_elem_of in E. rewrite Forall_forall in Hall.
      specialize (Hall _ E). simpl in Hall. by rewrite Hall.
    + apply last_None in E.
      assert (issued st ≠ []) as Hne; [|done].
      clear -Hr. induction Hr as [st H|st ev st' _ IH _ Hstep].
      * destruct (VirtualList_inv _ _ H) as (h & _ & _ & Hst).
        destruct Hst as (_ & _ & _ & _ & _ & _ & _ & _ & _ & _ & _ & Hi & _).
        by rewrite Hi.
      * destruct (step_issued _ _ _ Hstep) as [->|[from ->]]; [done|].
        by destruct (issued st).
  - intros from count Hin. by apply (Hsub (from, count)).
Qed.


(** X12.  With a last accepted repaint position other than 0, a scroll
    check that moved by no more than [maxBuffer] from it only records
    the time: it requests no window, issues no fetch and keeps the
    reference position, so that further small moves add up against the
    same position. *)
Theorem scroll_check_within_buffer_only_records_time (now scrollTop y : Z) st :
  lastRepaintY st = Some y → y ≠ 0 →
  Z.abs (scrollTop - y) ≤ maxBuffer st →
  onScroll_timeout now scrollTop st = set_lastScrolled now st ∧
  requested (onScroll_timeout now scrollTop st) = requested st ∧
  issued (onScroll_timeout now scrollTop st) = issued st ∧
  lastRepaintY (onScroll_timeout now scrollTop st) = Some y ∧
  lastScrolled (onScroll_timeout now scrollTop st) = now.
Proof.
  intros Hy Hne Hd.
  rewrite (scroll_within_buffer_no_request now scrollTop y st Hy Hne Hd).
  split_and!; done.
Qed.

(** X13.  For a row height other than 0, a scroll check records its
    time, requests at most one window, and never one that starts below
    0, whatever the scroll offset and the state; it mounts and removes
    nothing. *)
Theorem scroll_check_requests_no_negative_window (now scrollTop : Z) st :
  itemHeight st ≠ 0 →
  lastScrolled (onScroll_timeout now scrollTop st) = now ∧
  childNodes (onScroll_timeout now scrollTop st) = childNodes st ∧
  heap (onScroll_timeout now scrollTop st) = heap st ∧
  totalRows (onScroll_timeout now scrollTop st) = totalRows st ∧
  (requested (onScroll_timeout now scrollTop st) = requested st ∨
   ∃ from, 0 ≤ from ∧
     requested (onScroll_timeout now scrollTop st) = requested st ++ [from] ∧
     lastRepaintY (onScroll_timeout now scrollTop st) = Some scrollTop).
Proof.
  intros _.
  unfold onScroll_timeout. destruct (repaint_due scrollTop st).
  - set (first := parseInt_div scrollTop (itemHeight st) - screenItemsLen st).
    set (from := if first <? 0 then 0 else first).
    destruct (renderChunk_dom from st) as (Hc & Hh & _).
    split_and!.
    + done.
    + exact Hc.
    + exact Hh.
    + exact (renderChunk_totalRows from st).
    + right. exists from. split_and!.
      * unfold from. destruct (Z.ltb_spec first 0); lia.
      * exact (renderChunk_requested from st).
      * done.
  - split_and!; try done. by left.
Qed.


(** X15.  The reaper leaves the list alone while it is being scrolled:
    a tick no more than 100 ms after a scroll check removes nothing,
    whatever elements carry [data-rm="1"]. *)
Theorem reaper_waits_after_scroll_check (now now' scrollTop : Z)
    (document : list nat) st :
  now' - now ≤ 100 →
  rmNodeInterval_tick now' document (onScroll_timeout now scrollTop st) =
    (onScroll_timeout now scrollTop st, true).
Proof.
  intros Hsoon. unfold rmNodeInterval_tick.
  assert (lastScrolled (onScroll_timeout now scrollTop st) = now) as -> by done.
  by destruct (Z.gtb_spec (now' - now) 100) as [|_]; [lia|].
Qed.

End Extras.

(** ** The further properties at the concrete list *)


Lemma demo_refetch_reachable : reachable demo_config false demo_refetch.
Proof.
  eapply (reach_step _ _ demo_shown (RenderChunk 60)).
  - apply demo_shown_reachable.
  - done.
  - vm_compute. reflexivity.
Qed.



Lemma updateTotalRows_last_wins_witness :
  updateTotalRows 7 (updateTotalRows 1000 demo_new) = updateTotalRows 7 demo_new.
Proof.
  destruct (updateTotalRows_last_wins 7 1000 demo_new) as (H & _). exact H.
Defined.


Lemma obsolete_rows_stay_obsolete_witness :
  reachable demo_config false demo_at_top ∧
  step (RenderChunk 90) demo_at_top = Some (_renderChunk 90 demo_at_top) ∧
  matches_rm (heap demo_at_top) 1 = true ∧
  matches_rm (heap (_renderChunk 90 demo_at_top)) 1 = true.
Proof.
  split; [apply demo_at_top_reachable|]. split; [vm_compute; reflexivity|].
  split; [vm_compute; reflexivity|].
  destruct (obsolete_rows_stay_obsolete demo_config false demo_at_top
              (RenderChunk 90) (_renderChunk 90 demo_at_top) 1) as [H _].
  - apply demo_at_top_reachable.
  - vm_compute. reflexivity.
  - vm_compute. reflexivity.
  - exact H.
Defined.

Lemma children_change_discipline_witness :
  step (FetchDone 0 [5; 6; 7]%nat 1000) demo_new = Some demo_shown ∧
  childNodes demo_shown = childNodes demo_new ++ seq (next_ref demo_new) 3.
Proof.
  split; [apply demo_shown_step|].
  exact (children_change_discipline (FetchDone 0 [5; 6; 7]%nat 1000)
           demo_new demo_shown demo_shown_step).
Defined.

Lemma empty_answer_blanks_display_witness :
  reachable demo_config false demo_refetch ∧
  fetch_done 0 [] 7 demo_refetch =
    Some (getNodes_callback {| f_from := 60; f_count := 30 |} [] 7
            (set_inflight [] demo_refetch)) ∧
  live_indices (getNodes_callback {| f_from := 60; f_count := 30 |} [] 7
                  (set_inflight [] demo_refetch)) = [].
Proof.
  split; [apply demo_refetch_reachable|]. split; [vm_compute; reflexivity|].
  destruct (empty_answer_blanks_display demo_config false demo_refetch 0 7
              (getNodes_callback {| f_from := 60; f_count := 30 |} [] 7
                 (set_inflight [] demo_refetch))) as (_ & H & _).
  - apply demo_refetch_reachable.
  - vm_compute. reflexivity.
  - exact H.
Defined.

Lemma reaper_stops_at_foreign_element_witness :
  2500 - lastScrolled demo_reaped > 100 ∧
  querySelectorAll_rm (heap demo_reaped) [1; 0; 4; 5; 6]%nat = [] ++ 1%nat :: [] ∧
  (1%nat ∉ childNodes demo_reaped) ∧
  ∃ st', rmNodeInterval_tick 2500 [1; 0; 4; 5; 6]%nat demo_reaped = (st', false) ∧
         heap st' = heap demo_reaped.
Proof.
  assert (1%nat ∉ childNodes demo_reaped) as Hnot.
  { assert (childNodes demo_reaped = [0; 4; 5; 6]%nat) as ->
      by (vm_compute; reflexivity).
    apply (bool_decide_unpack _). vm_compute. exact I. }
  split; [vm_compute; reflexivity|]. split; [vm_compute; reflexivity|].
  split; [exact Hnot|].
  destruct (reaper_stops_at_foreign_element 2500 [1; 0; 4; 5; 6]%nat [] [] 1 demo_reaped)
    as (st' & Htick & Hheap & _).
  - vm_compute. reflexivity.
  - vm_compute. reflexivity.
  - exact Hnot.
  - exists st'. split; assumption.
Defined.

Lemma second_reaper_tick_changes_nothing_witness :
  reachable demo_config false demo_at_top ∧
  2000 - lastScrolled demo_at_top > 100 ∧
  rmNodeInterval_tick 3000 [0; 4; 5; 6]%nat demo_reaped = (demo_reaped, true).
Proof.
  split; [apply demo_at_top_reachable|]. split; [vm_compute; reflexivity|].
  apply (second_reaper_tick_changes_nothing demo_config false demo_at_top 2000 3000
           [0; 1; 2; 3; 4; 5; 6]%nat [0; 4; 5; 6]%nat).
  - apply demo_at_top_reachable.
  - vm_compute. reflexivity.
  - vm_compute. reflexivity.
  - vm_compute. reflexivity.
Defined.

Lemma repaint_window_covers_viewport_witness :
  reachable demo_config false demo_shown ∧
  repaint_due 5000 demo_shown = true ∧
  255 * 20 < 5000 + 200 ∧ 5000 < (255 + 1) * 20 ∧
  ∃ from, requested (onScroll_timeout 1000 5000 demo_shown) =
            requested demo_shown ++ [from] ∧
          from ≤ 255 < from + cachedItemsLen demo_shown.
Proof.
  split; [apply demo_shown_reachable|]. split; [vm_compute; reflexivity|].
  split; [lia|]. split; [lia|].
  apply (repaint_window_covers_viewport demo_config false demo_shown 200 1000 5000 255).
  - apply demo_shown_reachable.
  - reflexivity.
  - split; vm_compute; reflexivity.
  - lia.
  - split; [vm_compute; discriminate | vm_compute; reflexivity].
  - right. vm_compute. discriminate.
  - vm_compute. reflexivity.
  - vm_compute. reflexivity.
  - vm_compute. reflexivity.
Defined.

Lemma last_request_pending_or_fetched_witness :
  reachable demo_config false demo_shown ∧ loading demo_shown = false ∧
  ∃ from, last (requested demo_shown) = Some from ∧
          last (issued demo_shown) = Some (from, cachedItemsLen demo_shown).
Proof.
  split; [apply demo_shown_reachable|]. split; [vm_compute; reflexivity|].
  destruct (last_request_pending_or_fetched demo_config false demo_shown)
    as (_ & Hidle & _).
  - apply demo_shown_reachable.
  - apply Hidle. vm_compute. reflexivity.
Defined.


Lemma scroll_check_within_buffer_only_records_time_witness :
  lastRepaintY demo_scrolled = Some 5000 ∧ 5000 ≠ 0 ∧
  Z.abs (5100 - 5000) ≤ maxBuffer demo_scrolled ∧
  requested (onScroll_timeout 1500 5100 demo_scrolled) = requested demo_scrolled ∧
  lastRepaintY (onScroll_timeout 1500 5100 demo_scrolled) = Some 5000.
Proof.
  split; [vm_compute; reflexivity|]. split; [lia|].
  split; [vm_compute; discriminate|].
  destruct (scroll_check_within_buffer_only_records_time 1500 5100 5000 demo_scrolled)
    as (_ & Hreq & _ & Hy & _).
  - vm_compute. reflexivity.
  - lia.
  - vm_compute. discriminate.
  - split; assumption.
Defined.


Lemma reaper_waits_after_scroll_check_witness :
  2050 - 2000 ≤ 100 ∧
  rmNodeInterval_tick 2050 [0; 1; 2; 3; 4; 5; 6]%nat (onScroll_timeout 2000 10 demo_at_top) =
    (onScroll_timeout 2000 10 demo_at_top, true).
Proof.
  split; [lia|].
  apply (reaper_waits_after_scroll_check 2000 2050 10). lia.
Defined.

Lemma scroll_check_requests_no_negative_window_witness :
  itemHeight demo_at_top ≠ 0 ∧
  lastScrolled (onScroll_timeout 2000 10 demo_at_top) = 2000 ∧
  childNodes (onScroll_timeout 2000 10 demo_at_top) = childNodes demo_at_top.
Proof.
  assert (itemHeight demo_at_top ≠ 0) as Hih by (vm_compute; discriminate).
  split; [exact Hih|].
  destruct (scroll_check_requests_no_negative_window 2000 10 demo_at_top Hih)
    as (Ht & Hc & _).
  split; assumption.
Defined.
